(** * A permission-checked hierarchical store (src/store.ts)

    Shallow embedding of the [Store] class and of the [Restrict] decorator.

    The JavaScript heap is explicit: objects live at locations, a value is a
    primitive or a reference, and every operation threads the heap.  A
    property access [o[k]] is modelled on the own data properties of [o];
    members inherited from built-in prototypes (the methods of [Store],
    [Object.prototype], [String.prototype], ...) and the exotic own
    properties of strings, arrays and functions ([length], indices, [name])
    are not represented: the definitions describe the code where path
    segments are data field names, which [data_key] makes precise.  JSON
    arrays are plain objects keyed by their indices.  Numbers are
    represented by the integers, the negative zero and [NaN]; the code
    only tests them for truthiness, and any other number behaves as a
    non-zero integer does.

    The methods are given twice.  [read], [write], [performRead] and
    [performWrite] take a call [this.m(...)] to the method [m] of the
    class; in [Dyn] the member [m] is looked up on the object first, as the
    runtime does, so that an own field named [m] replaces the method. *)

From Stdlib Require Import String Ascii ZArith List Bool Lia.
From stdpp Require Import gmap strings list fin_maps.

Local Open Scope string_scope.

(** ** Strings: [split], [join], [includes] *)

(** [path.split(sep)] for a one-character separator: never empty, an empty
    path gives one empty segment. *)
Fixpoint split (sep : ascii) (s : string) : list string :=
  match s with
  | EmptyString => [EmptyString]
  | String c s' =>
      if Ascii.eqb c sep then EmptyString :: split sep s'
      else match split sep s' with
           | w :: ws => String c w :: ws
           | [] => [String c EmptyString]
           end
  end.

(** [keys.join(sep)]. *)
Definition join (sep : string) (keys : list string) : string :=
  String.concat sep keys.

(** [s.includes(sub)] on strings. *)
Fixpoint str_includes (s sub : string) : bool :=
  String.prefix sub s ||
  match s with
  | EmptyString => false
  | String _ s' => str_includes s' sub
  end.

(** [keys[0]] used as a property key: an empty array gives [undefined],
    which as a key is the string "undefined". *)
Definition key0 (keys : list string) : string := hd "undefined" keys.

Definition colon : ascii := ":"%char.

(** Whether the character occurs in the string. *)
Fixpoint has_char (c : ascii) (s : string) : bool :=
  match s with
  | EmptyString => false
  | String a s' => Ascii.eqb a c || has_char c s'
  end.

(** ** Values, objects, heap *)

Definition loc := positive.
Definition proto := positive.
Definition fun_id := positive.

Inductive value : Type :=
| VUndef
| VNull
| VBool (b : bool)
| VNum (n : Z)
| VNegZero
| VNaN
| VStr (s : string)
| VRef (l : loc).

(** What an object is an instance of.  A store carries the prototype chain
    of its class, most derived first; [Reflect.getMetadata] walks it. *)
Inductive kind : Type :=
| KStore (chain : list proto)
| KPlain
| KFun (f : fun_id).

Record object : Type := Obj { okind : kind; ofields : gmap string value }.

Abbreviation heap := (gmap loc object).

Inductive error : Type :=
| InvalidPermission (p : string)   (* Error(`Invalid permission: ${p}`) *)
| NoPermissionRead                 (* Error('No permission for read') *)
| NoPermissionWrite                (* Error('No permission for write') *)
| TypeError.                       (* raised by the runtime *)

(** The two errors the specification calls PermissionDenied. *)
Definition PermissionDenied (e : error) : Prop :=
  e = NoPermissionRead \/ e = NoPermissionWrite.

(** Result of an expression that does not change the heap. *)
Inductive result (A : Type) : Type :=
| Ok (a : A)
| Err (e : error).
Arguments Ok {A} a.
Arguments Err {A} e.

(** Result of a call: a value and the heap after it, an exception and the
    heap at the throw, or an exhausted call-depth budget. *)
Inductive outcome (A : Type) : Type :=
| Ret (a : A) (h : heap)
| Throw (e : error) (h : heap)
| OutOfFuel.
Arguments Ret {A} a h.
Arguments Throw {A} e h.
Arguments OutOfFuel {A}.

Definition truthy (v : value) : bool :=
  match v with
  | VUndef | VNull => false
  | VBool b => b
  | VNum n => negb (Z.eqb n 0)
  | VNegZero | VNaN => false
  | VStr s => negb (String.eqb s "")
  | VRef _ => true
  end.

(** The object at a location; a location that was never allocated reads as
    an empty plain object (no reference of a JavaScript program dangles). *)
Definition empty_object : object := Obj KPlain ∅.

Definition obj_at (h : heap) (l : loc) : object :=
  default empty_object (h !! l).

(** [o[key]] on the object at [l]: [undefined] when the field is absent. *)
Definition field (h : heap) (l : loc) (key : string) : value :=
  default VUndef (ofields (obj_at h l) !! key).

(** [current[key]] as an rvalue. *)
Definition get_prop (h : heap) (current : value) (key : string) : result value :=
  match current with
  | VUndef | VNull => Err TypeError
  | VRef l => Ok (field h l key)
  | VBool _ | VNum _ | VNegZero | VNaN | VStr _ => Ok VUndef
  end.

(** The heap after [o[key] = v] on the object at [l]. *)
Definition set_field (l : loc) (key : string) (v : value) (h : heap) : heap :=
  <[l := Obj (okind (obj_at h l)) (<[key := v]> (ofields (obj_at h l)))]> h.

(** [current[key] = v] in strict mode: only objects take properties. *)
Definition set_prop (current : value) (key : string) (v : value) (h : heap)
  : outcome unit :=
  match current with
  | VRef l => Ret tt (set_field l key v h)
  | _ => Throw TypeError h
  end.

(** [new C()] / [{}]: a fresh location. *)
Definition alloc (o : object) (h : heap) : loc * heap :=
  let l := fresh (dom h) in (l, <[l := o]> h).

Definition kind_of (h : heap) (v : value) : option kind :=
  match v with
  | VRef l => Some (okind (obj_at h l))
  | _ => None
  end.

(** [v instanceof Store], giving the store's location. *)
Definition as_Store (h : heap) (v : value) : option loc :=
  match v with
  | VRef l =>
      match okind (obj_at h l) with
      | KStore _ => Some l
      | _ => None
      end
  | _ => None
  end.

Definition instanceof_Store (h : heap) (v : value) : bool :=
  match as_Store h v with Some _ => true | None => false end.

(** [v instanceof Function], giving the function. *)
Definition as_Function (h : heap) (v : value) : option fun_id :=
  match kind_of h v with
  | Some (KFun f) => Some f
  | _ => None
  end.

(** ** The permission registry: [Restrict] and reflect-metadata *)

(** Metadata under the key 'permission', per (target, property). *)
Abbreviation registry := (gmap (proto * string) string).

Definition permissions : list string := ["r"; "w"; "rw"; "none"].

(** [['r','w','rw','none'].includes(p)]. *)
Definition is_permission (p : string) : bool :=
  existsb (String.eqb p) permissions.

(** [Restrict(permission?)] up to the returned decorator: the permission the
    decorator closes over, or the exception.  A missing argument is [None];
    a string argument is truthy when it is not empty. *)
Definition Restrict (permission : option string) : result string :=
  match permission with
  | Some p =>
      if negb (String.eqb p "") && negb (is_permission p)
      then Err (InvalidPermission p)
      else if String.eqb p "" then Ok "none" else Ok p
  | None => Ok "none"
  end.

(** The returned decorator:
    [Reflect.defineMetadata('permission', permission, target, propertyKey)]. *)
Definition decorator (permission : string) (target : proto)
    (propertyKey : string) (reg : registry) : registry :=
  <[(target, propertyKey) := permission]> reg.

(** [@Restrict(permission) propertyKey] in the class whose prototype is
    [target]: the outcome of the declaration and the registry after it. *)
Definition declare (permission : option string) (target : proto)
    (propertyKey : string) (reg : registry) : result unit * registry :=
  match Restrict permission with
  | Ok p => (Ok tt, decorator p target propertyKey reg)
  | Err e => (Err e, reg)
  end.

(** [Reflect.getMetadata('permission', this, key)]: the first prototype of
    the chain that carries the metadata. *)
Fixpoint getMetadata (reg : registry) (chain : list proto) (key : string)
  : option string :=
  match chain with
  | [] => None
  | p :: ps =>
      match reg !! (p, key) with
      | Some v => Some v
      | None => getMetadata reg ps key
      end
  end.

(** Prototype chain of the object at [this], empty when it is not a store. *)
Definition chain_of (h : heap) (this : loc) : list proto :=
  match okind (obj_at h this) with
  | KStore chain => chain
  | _ => []
  end.

(** ** The Store class *)

Section Store.

(** Declarations are made when the classes are defined; store operations
    only read them. *)
Variable reg : registry.

(** Calling a stored zero-argument function: its return value and the heap
    after the call (a factory such as [() => new ChildStore()] allocates).
    Stored functions are taken to return: they neither throw nor call back
    into the store. *)
Variable invoke : fun_id -> heap -> value * heap.

(** [new Store()]: the field initialiser [defaultPolicy = 'rw']. *)
Definition new_Store (chain : list proto) (h : heap) : loc * heap :=
  alloc (Obj (KStore chain) {[ "defaultPolicy" := VStr "rw" ]}) h.

(** [this.defaultPolicy.includes(c)]. *)
Definition defaultPolicy_includes (h : heap) (this : loc) (c : string)
  : result bool :=
  match field h this "defaultPolicy" with
  | VStr s => Ok (str_includes s c)
  | _ => Err TypeError
  end.

(** [allowedToRead] and [allowedToWrite] differ only in the letter they
    look for, [c]: the declared permission when the metadata is truthy, else
    the default policy. *)
Definition allowedTo (c : string) (h : heap) (this : loc) (key : string)
  : result bool :=
  match getMetadata reg (chain_of h this) key with
  | Some permission =>
      if negb (String.eqb permission "")
      then Ok (str_includes permission c)
      else defaultPolicy_includes h this c
  | None => defaultPolicy_includes h this c
  end.

Definition allowedToRead : heap -> loc -> string -> result bool :=
  allowedTo "r".

Definition allowedToWrite : heap -> loc -> string -> result bool :=
  allowedTo "w".

(** [keys.length > 1 && this[key] instanceof Store]: the nested store the
    call is handed to. *)
Definition delegate (h : heap) (this : loc) (keys : list string) : option loc :=
  if Nat.ltb 1 (length keys) then as_Store h (field h this (key0 keys))
  else None.

(** Calls [v] when it is a function, as in
    [result instanceof Function ? result() : result]. *)
Definition force (v : value) (h : heap) : outcome value :=
  match as_Function h v with
  | Some f => let '(r, h') := invoke f h in Ret r h'
  | None => Ret v h
  end.

(** [performRead(keys, current)]; [fuel] bounds the depth of the calls,
    which the source does not: with no segment left the traversal follows
    fields named "undefined" for as long as they hold stores or functions. *)
Fixpoint performRead (fuel : nat) (keys : list string) (current : value)
    (h : heap) : outcome value :=
  match fuel with
  | O => OutOfFuel
  | S fuel' =>
      let key := key0 keys in
      match get_prop h current key with
      | Err e => Throw e h
      | Ok v =>
          if instanceof_Store h v then
            performRead fuel' (tail keys) v h
          else
            match as_Function h v with
            | Some f =>
                let '(r, h') := invoke f h in
                if Nat.eqb (length keys) 1 then Ret r h'
                else performRead fuel' (tail keys) r h'
            | None =>
                if Nat.ltb 1 (length keys)
                then performRead fuel' (tail keys) v h
                else Ret v h
            end
      end
  end.

(** [this.read(path)]. *)
Fixpoint read (fuel : nat) (this : loc) (path : string) (h : heap)
  : outcome value :=
  match fuel with
  | O => OutOfFuel
  | S fuel' =>
      let keys := split colon path in
      let key := key0 keys in
      match delegate h this keys with
      | Some nested => read fuel' nested (join ":" (tail keys)) h
      | None =>
          match allowedToRead h this key with
          | Err e => Throw e h
          | Ok false => Throw NoPermissionRead h
          | Ok true =>
              match (if Nat.ltb 1 (length keys)
                     then performRead fuel' keys (VRef this) h
                     else Ret (field h this key) h) with
              | Ret r h' => force r h'
              | Throw e h' => Throw e h'
              | OutOfFuel => OutOfFuel
              end
          end
      end
  end.

(** [performWrite(keys, value, current)]: the recursion is on [keys]; for
    the recursive call the source re-reads [current[key]], which is the
    value just assigned. *)
Fixpoint performWrite (keys : list string) (v : value) (current : value)
    (h : heap) : outcome unit :=
  let key := key0 keys in
  match keys with
  | _ :: ((_ :: _) as rest) =>
      match get_prop h current key with
      | Err e => Throw e h
      | Ok old =>
          if instanceof_Store h old then performWrite rest v old h
          else
            (* current[key] = current[key] || {} *)
            let '(new, h1) :=
              if truthy old then (old, h)
              else let '(l, h1) := alloc empty_object h in (VRef l, h1) in
            match set_prop current key new h1 with
            | Ret _ h2 => performWrite rest v new h2
            | Throw e h2 => Throw e h2
            | OutOfFuel => OutOfFuel
            end
      end
  | _ => set_prop current key v h
  end.

(** [this.write(path, value)]. *)
Fixpoint write (fuel : nat) (this : loc) (path : string) (v : value)
    (h : heap) : outcome value :=
  match fuel with
  | O => OutOfFuel
  | S fuel' =>
      let keys := split colon path in
      let key := key0 keys in
      match delegate h this keys with
      | Some nested => write fuel' nested (join ":" (tail keys)) v h
      | None =>
          match allowedToWrite h this key with
          | Err e => Throw e h
          | Ok false => Throw NoPermissionWrite h
          | Ok true =>
              match performWrite keys v (VRef this) h with
              | Ret _ h' => Ret v h'
              | Throw e h' => Throw e h'
              | OutOfFuel => OutOfFuel
              end
          end
      end
  end.

(** The loop of [entries()] over the keys; the local object [entries] is
    accumulated as a map. *)
Fixpoint entries_loop (h : heap) (this : loc) (keys : list string)
    (acc : gmap string value) : result (gmap string value) :=
  match keys with
  | [] => Ok acc
  | key :: keys' =>
      match getMetadata reg (chain_of h this) key with
      | Some permission =>
          if negb (String.eqb permission "") then
            match allowedToRead h this key with
            | Err e => Err e
            | Ok true =>
                entries_loop h this keys' (<[key := field h this key]> acc)
            | Ok false => entries_loop h this keys' acc
            end
          else entries_loop h this keys' acc
      | None => entries_loop h this keys' acc
      end
  end.

(** [Object.keys(this)]: the own fields. *)
Definition Object_keys (h : heap) (this : loc) : list string :=
  (map_to_list (ofields (obj_at h this))).*1.

(** [this.entries()]: the accumulated object is allocated when returned. *)
Definition entries (this : loc) (h : heap) : outcome value :=
  match entries_loop h this (Object_keys h this) ∅ with
  | Ok m => let '(l, h') := alloc (Obj KPlain m) h in Ret (VRef l) h'
  | Err e => Throw e h
  end.

End Store.

(** ** Names the runtime resolves by itself

    The definitions above read and assign own data fields.  They describe
    the code where a property key names nothing else: no member inherited
    from a built-in prototype or from [Store.prototype], no accessor such as
    [__proto__], no exotic own property such as [length], [name] or the
    characters of a string.  The objects of the heap are ordinary ones:
    extensible, with writable data properties.  The classes of the stores
    are [Store] and subclasses that add declared fields only. *)

(** The methods of [Store.prototype]. *)
Definition method_names : list string :=
  ["allowedToRead"; "allowedToWrite"; "read"; "write"; "writeEntries";
   "entries"; "performRead"; "performWrite"].

(** The members of [Object.prototype]. *)
Definition Object_prototype_names : list string :=
  ["__proto__"; "constructor"; "hasOwnProperty"; "isPrototypeOf";
   "propertyIsEnumerable"; "toLocaleString"; "toString"; "valueOf";
   "__defineGetter__"; "__defineSetter__"; "__lookupGetter__";
   "__lookupSetter__"].

(** Own properties of functions and the members of [Function.prototype]. *)
Definition Function_names : list string :=
  ["length"; "name"; "prototype"; "arguments"; "caller"; "apply"; "bind";
   "call"].

(** The members of [Array.prototype] (an array also has [length]). *)
Definition Array_prototype_names : list string :=
  ["at"; "concat"; "copyWithin"; "entries"; "every"; "fill"; "filter";
   "find"; "findIndex"; "findLast"; "findLastIndex"; "flat"; "flatMap";
   "forEach"; "includes"; "indexOf"; "join"; "keys"; "lastIndexOf"; "map";
   "pop"; "push"; "reduce"; "reduceRight"; "reverse"; "shift"; "slice";
   "some"; "sort"; "splice"; "toReversed"; "toSorted"; "toSpliced";
   "unshift"; "values"; "with"; "group"; "groupToMap"].

(** The members of [Number.prototype] not already listed. *)
Definition Number_prototype_names : list string :=
  ["toExponential"; "toFixed"; "toPrecision"].

(** The members of [String.prototype] not already listed (a string also
    has [length]). *)
Definition String_prototype_names : list string :=
  ["anchor"; "big"; "blink"; "bold"; "charAt"; "charCodeAt"; "codePointAt";
   "endsWith"; "fixed"; "fontcolor"; "fontsize"; "isWellFormed"; "italics";
   "link"; "localeCompare"; "match"; "matchAll"; "normalize"; "padEnd";
   "padStart"; "repeat"; "replace"; "replaceAll"; "search"; "small";
   "split"; "startsWith"; "strike"; "sub"; "substr"; "substring"; "sup";
   "toLocaleLowerCase"; "toLocaleUpperCase"; "toLowerCase"; "toUpperCase";
   "toWellFormed"; "trim"; "trimEnd"; "trimLeft"; "trimRight"; "trimStart"].

Definition reserved_names : list string :=
  Object_prototype_names ++ method_names ++ Function_names
  ++ Array_prototype_names ++ Number_prototype_names
  ++ String_prototype_names.

Definition is_digit (c : ascii) : bool :=
  (48 <=? nat_of_ascii c)%nat && (nat_of_ascii c <=? 57)%nat.

Fixpoint all_digits (s : string) : bool :=
  match s with
  | EmptyString => true
  | String c s' => is_digit c && all_digits s'
  end.

(** A key written in digits only: on a string it names a character, on an
    array an element. *)
Definition is_index (k : string) : bool :=
  match k with
  | EmptyString => false
  | String _ _ => all_digits k
  end.

(** A key that, on a store, a plain object, an array, a function, a
    string, a number or a boolean, can only name an own data field of an
    object and nothing of a primitive value. *)
Definition data_key (k : string) : bool :=
  negb (existsb (String.eqb k) reserved_names) && negb (is_index k).

(** No own field of the object at [l] hides a method of [Store]. *)
Definition unshadowed (h : heap) (l : loc) : bool :=
  forallb (fun name =>
             match ofields (obj_at h l) !! name with
             | Some _ => false
             | None => true
             end) method_names.

(** No object of the heap has an own field named like a method of
    [Store]. *)
Definition heap_unshadowed (h : heap) : bool :=
  forallb (fun lo : loc * object =>
             forallb (fun name =>
                        match ofields lo.2 !! name with
                        | Some _ => false
                        | None => true
                        end) method_names) (map_to_list h).

(** ** The methods with their calls resolved on the object

    [read], [write], [performRead] and [performWrite] above take every call
    [this.m(...)] and [this[key].m(...)] to the method [m] of [Store].  The
    runtime looks [m] up on the object: an own field named [m] hides the
    method.  The definitions of [Dyn] follow the runtime. *)

(** What a call [o.name(...)] reaches. *)
Inductive callee : Type :=
| Method                 (* the method of the class *)
| Stored (f : fun_id)    (* an own field holding a function *)
| NotCallable.           (* an own field holding anything else *)

Definition lookup_method (h : heap) (o : loc) (name : string) : callee :=
  match ofields (obj_at h o) !! name with
  | None => Method
  | Some v =>
      match as_Function h v with
      | Some f => Stored f
      | None => NotCallable
      end
  end.

Module Dyn.
Section Dyn.

Variable reg : registry.

(** As in [Section Store]; the stored functions of the model take no
    argument, so one that is called in place of a method ignores what it
    is passed. *)
Variable invoke : fun_id -> heap -> value * heap.

(** [this.allowedToRead(key)] and [this.allowedToWrite(key)] where they
    are tested: [name] is the member called, [c] the letter the method
    looks for; the result of a stored function is taken for its
    truthiness. *)
Definition allowedTo_call (name c : string) (h : heap) (this : loc)
    (key : string) : outcome bool :=
  match lookup_method h this name with
  | Method =>
      match allowedTo reg c h this key with
      | Ok b => Ret b h
      | Err e => Throw e h
      end
  | Stored f => let '(r, h') := invoke f h in Ret (truthy r) h'
  | NotCallable => Throw TypeError h
  end.

(** [performRead(keys, current)] called on [this].  In
    [this.performRead(keys.slice(1), arg)] the member is looked up before
    the argument is evaluated. *)
Fixpoint performRead (fuel : nat) (this : loc) (keys : list string)
    (current : value) (h : heap) : outcome value :=
  match fuel with
  | O => OutOfFuel
  | S fuel' =>
      let key := key0 keys in
      let recur (c : callee) (arg : value) (ha : heap) : outcome value :=
        match c with
        | Method => performRead fuel' this (tail keys) arg ha
        | Stored g => let '(r, h') := invoke g ha in Ret r h'
        | NotCallable => Throw TypeError ha
        end in
      match get_prop h current key with
      | Err e => Throw e h
      | Ok v =>
          if instanceof_Store h v then
            recur (lookup_method h this "performRead") v h
          else
            match as_Function h v with
            | Some f =>
                if Nat.eqb (length keys) 1
                then let '(r, h') := invoke f h in Ret r h'
                else
                  let c := lookup_method h this "performRead" in
                  let '(r, h') := invoke f h in recur c r h'
            | None =>
                if Nat.ltb 1 (length keys)
                then recur (lookup_method h this "performRead") v h
                else Ret v h
            end
      end
  end.

(** [this.read(path)] where [read] is the method of [Store]. *)
Fixpoint read (fuel : nat) (this : loc) (path : string) (h : heap)
  : outcome value :=
  match fuel with
  | O => OutOfFuel
  | S fuel' =>
      let keys := split colon path in
      let key := key0 keys in
      match delegate h this keys with
      | Some nested =>
          (* this[key].read(keys.slice(1).join(':')) *)
          match lookup_method h nested "read" with
          | Method => read fuel' nested (join ":" (tail keys)) h
          | Stored g => let '(r, h') := invoke g h in Ret r h'
          | NotCallable => Throw TypeError h
          end
      | None =>
          match allowedTo_call "allowedToRead" "r" h this key with
          | Throw e h1 => Throw e h1
          | OutOfFuel => OutOfFuel
          | Ret false h1 => Throw NoPermissionRead h1
          | Ret true h1 =>
              match (if Nat.ltb 1 (length keys)
                     then
                       match lookup_method h1 this "performRead" with
                       | Method => performRead fuel' this keys (VRef this) h1
                       | Stored g => let '(r, h') := invoke g h1 in Ret r h'
                       | NotCallable => Throw TypeError h1
                       end
                     else Ret (field h1 this key) h1) with
              | Ret r h' => force invoke r h'
              | Throw e h' => Throw e h'
              | OutOfFuel => OutOfFuel
              end
          end
      end
  end.

(** [performWrite(keys, value, current)] called on [this]. *)
Fixpoint performWrite (this : loc) (keys : list string) (v : value)
    (current : value) (h : heap) : outcome unit :=
  let key := key0 keys in
  match keys with
  | _ :: ((_ :: _) as rest) =>
      match get_prop h current key with
      | Err e => Throw e h
      | Ok old =>
          if instanceof_Store h old then
            match lookup_method h this "performWrite" with
            | Method => performWrite this rest v old h
            | Stored g => let '(_, h') := invoke g h in Ret tt h'
            | NotCallable => Throw TypeError h
            end
          else
            (* current[key] = current[key] || {} *)
            let '(new, h1) :=
              if truthy old then (old, h)
              else let '(l, h1) := alloc empty_object h in (VRef l, h1) in
            match set_prop current key new h1 with
            | Ret _ h2 =>
                match lookup_method h2 this "performWrite" with
                | Method => performWrite this rest v new h2
                | Stored g => let '(_, h') := invoke g h2 in Ret tt h'
                | NotCallable => Throw TypeError h2
                end
            | Throw e h2 => Throw e h2
            | OutOfFuel => OutOfFuel
            end
      end
  | _ => set_prop current key v h
  end.

(** [this.write(path, value)] where [write] is the method of [Store]. *)
Fixpoint write (fuel : nat) (this : loc) (path : string) (v : value)
    (h : heap) : outcome value :=
  match fuel with
  | O => OutOfFuel
  | S fuel' =>
      let keys := split colon path in
      let key := key0 keys in
      match delegate h this keys with
      | Some nested =>
          (* this[key].write(keys.slice(1).join(':'), value) *)
          match lookup_method h nested "write" with
          | Method => write fuel' nested (join ":" (tail keys)) v h
          | Stored g => let '(r, h') := invoke g h in Ret r h'
          | NotCallable => Throw TypeError h
          end
      | None =>
          match allowedTo_call "allowedToWrite" "w" h this key with
          | Throw e h1 => Throw e h1
          | OutOfFuel => OutOfFuel
          | Ret false h1 => Throw NoPermissionWrite h1
          | Ret true h1 =>
              match (match lookup_method h1 this "performWrite" with
                     | Method => performWrite this keys v (VRef this) h1
                     | Stored g => let '(_, h') := invoke g h1 in Ret tt h'
                     | NotCallable => Throw TypeError h1
                     end) with
              | Ret _ h' => Ret v h'
              | Throw e h' => Throw e h'
              | OutOfFuel => OutOfFuel
              end
          end
      end
  end.

End Dyn.
End Dyn.

(** ** Bulk load *)

(** The loop of [writeEntries]:
    [for (const entry in entries) this[entry] = entries[entry]], over the
    keys of the object at [e].  The value is read when its key is reached. *)
Fixpoint writeEntries_loop (this e : loc) (keys : list string) (h : heap)
  : heap :=
  match keys with
  | [] => h
  | entry :: keys' =>
      writeEntries_loop this e keys' (set_field this entry (field h e entry) h)
  end.

(** [this.writeEntries(entries)].  A for-in loop over [null], [undefined],
    a number or a boolean has no iteration; [entries] is a JSON object by
    its type (the characters of a string are not represented). *)
Definition writeEntries (this : loc) (entries : value) (h : heap)
  : outcome unit :=
  match entries with
  | VRef e => Ret tt (writeEntries_loop this e (Object_keys h e) h)
  | _ => Ret tt h
  end.

(** No reference stored in a field dangles. *)
Definition closed (h : heap) : Prop :=
  forall l o k l',
    h !! l = Some o -> ofields o !! k = Some (VRef l') -> is_Some (h !! l').

(** ** Specification-side vocabulary *)

(** The permission table of the specification: what each permission allows,
    as (read, write).  'r' is read-only, 'w' write-only, 'rw' read-write. *)
Definition spec_table (p : string) : option (bool * bool) :=
  if String.eqb p "rw" then Some (true, true)
  else if String.eqb p "r" then Some (true, false)
  else if String.eqb p "w" then Some (false, true)
  else if String.eqb p "none" then Some (false, false)
  else None.

(** A call ended with one of the two permission errors. *)
Definition denied {A : Type} (o : outcome A) : Prop :=
  exists e h, o = Throw e h /\ PermissionDenied e.

(** Every registered permission went through [Restrict]. *)
Definition registry_ok (reg : registry) : Prop :=
  forall k p, reg !! k = Some p -> In p permissions.


(** The call ended, if it did, in the heap [h]. *)
Definition same_heap {A : Type} (h : heap) (o : outcome A) : Prop :=
  match o with
  | Ret _ h' => h' = h
  | Throw _ h' => h' = h
  | OutOfFuel => True
  end.

(** ** Example stores

    An outer store [S] at location 1 (class prototype 20, nothing declared)
    whose field [inner] holds the store [T] at location 2 (class prototype
    10, declaring [field] as 'rw'); both have [defaultPolicy] 'none'. *)
Definition ex_reg : registry := {[ (10%positive, "field") := "rw" ]}.

Definition ex_T : object :=
  Obj (KStore [10%positive])
      {[ "defaultPolicy" := VStr "none"; "field" := VNum 7 ]}.

Definition ex_S : object :=
  Obj (KStore [20%positive])
      {[ "defaultPolicy" := VStr "none"; "inner" := VRef 2%positive ]}.

Definition ex_heap : heap := {[ 1%positive := ex_S; 2%positive := ex_T ]}.

(** A store at location 1 whose field [x] holds the number 0. *)
Definition ex_zero : heap :=
  {[ 1%positive :=
       Obj (KStore [20%positive])
           {[ "defaultPolicy" := VStr "rw"; "x" := VNum 0 ]} ]}.

(** A store at location 1 with a function [f] and a plain object [o] whose
    field [g] is the same function. *)
Definition ex_lazy : heap :=
  {[ 1%positive :=
       Obj (KStore [20%positive])
           {[ "defaultPolicy" := VStr "rw"; "f" := VRef 3%positive;
              "o" := VRef 4%positive ]};
     3%positive := Obj (KFun 7%positive) ∅;
     4%positive := Obj KPlain {[ "g" := VRef 3%positive ]} ]}.

(** A store at location 1 and, at location 3, a function. *)
Definition ex_fun : heap :=
  {[ 1%positive :=
       Obj (KStore [20%positive]) {[ "defaultPolicy" := VStr "rw" ]};
     3%positive := Obj (KFun 7%positive) ∅ ]}.

(** A store at location 1 with default policy 'none' and, at location 5, a
    plain object to load into it. *)
Definition ex_bulk : heap :=
  {[ 1%positive :=
       Obj (KStore [20%positive]) {[ "defaultPolicy" := VStr "none" ]};
     5%positive :=
       Obj KPlain {[ "a" := VNum 1; "defaultPolicy" := VStr "rw" ]} ]}.

(** A newly constructed store, at location 1 of an empty heap. *)
Definition ex_new : heap := (new_Store [20%positive] ∅).2.

(** A store at location 1 whose fields [a] and [b] hold the same plain
    object, at location 4. *)
Definition ex_shared : heap :=
  {[ 1%positive :=
       Obj (KStore [20%positive])
           {[ "defaultPolicy" := VStr "rw"; "a" := VRef 4%positive;
              "b" := VRef 4%positive ]};
     4%positive := Obj KPlain ∅ ]}.

(** A store at location 1 holding the store at location 2 in its field [s]
    and, in its field [o], a plain object whose field [s] is that store. *)
Definition ex_behind : heap :=
  {[ 1%positive :=
       Obj (KStore [20%positive])
           {[ "defaultPolicy" := VStr "rw"; "s" := VRef 2%positive;
              "o" := VRef 4%positive ]};
     2%positive :=
       Obj (KStore [20%positive]) {[ "defaultPolicy" := VStr "rw" ]};
     4%positive := Obj KPlain {[ "s" := VRef 2%positive ]} ]}.


(** A store at location 1 whose field [x] holds the number 5. *)
Definition ex_five : heap :=
  {[ 1%positive :=
       Obj (KStore [20%positive])
           {[ "defaultPolicy" := VStr "rw"; "x" := VNum 5 ]} ]}.

(** Every stored function of the examples returns 42 and allocates nothing. *)
Definition ex_invoke : fun_id -> heap -> value * heap :=
  fun _ h => (VNum 42, h).

(** A class (prototype 30) declaring [secret] as 'r'. *)
Definition ex_secret_reg : registry := {[ (30%positive, "secret") := "r" ]}.

(** An instance of that class at location 1, with [secret] = 1, and a
    function at location 3. *)
Definition ex_open : heap :=
  {[ 1%positive :=
       Obj (KStore [30%positive])
           {[ "defaultPolicy" := VStr "rw"; "secret" := VNum 1 ]};
     3%positive := Obj (KFun 7%positive) ∅ ]}.

(** The same store once the function is held by its field
    [allowedToWrite]. *)
Definition ex_hidden : heap :=
  {[ 1%positive :=
       Obj (KStore [30%positive])
           {[ "defaultPolicy" := VStr "rw"; "secret" := VNum 1;
              "allowedToWrite" := VRef 3%positive ]};
     3%positive := Obj (KFun 7%positive) ∅ ]}.


(** Stored functions that return [true]. *)
Definition ex_yes : fun_id -> heap -> value * heap :=
  fun _ h => (VBool true, h).

(** ** Basic facts *)

Lemma is_permission_In (p : string) :
  is_permission p = true <-> In p permissions.
Proof.
  unfold is_permission. rewrite existsb_exists. split.
  - intros (x & Hx & He). apply String.eqb_eq in He. now subst.
  - intros H. exists p. split; [assumption | apply String.eqb_refl].
Qed.

Lemma spec_table_cases (p : string) (rw : bool * bool) :
  spec_table p = Some rw ->
  (p = "rw" /\ rw = (true, true)) \/ (p = "r" /\ rw = (true, false)) \/
  (p = "w" /\ rw = (false, true)) \/ (p = "none" /\ rw = (false, false)).
Proof.
  unfold spec_table.
  destruct (String.eqb_spec p "rw"); [intros [= <-]; auto |].
  destruct (String.eqb_spec p "r"); [intros [= <-]; auto |].
  destruct (String.eqb_spec p "w"); [intros [= <-]; auto |].
  destruct (String.eqb_spec p "none"); [intros [= <-]; auto 6 | discriminate].
Qed.

Lemma split_nonempty (sep : ascii) (s : string) : split sep s <> [].
Proof.
  destruct s as [|c s]; simpl; [discriminate |].
  destruct (Ascii.eqb c sep); [discriminate |].
  destruct (split sep s); discriminate.
Qed.

(** The segments [split] returns are free of the separator. *)
Lemma split_no_sep (sep : ascii) (s : string) :
  Forall (fun w => has_char sep w = false) (split sep s).
Proof.
  induction s as [|c s IH]; simpl.
  - constructor; [reflexivity | constructor].
  - destruct (Ascii.eqb c sep) eqn:Hc.
    + constructor; [reflexivity | exact IH].
    + destruct (split sep s) as [|w ws].
      * constructor; [simpl; now rewrite Hc | constructor].
      * inversion IH as [|? ? Hw Hws]; subst.
        constructor; [simpl; now rewrite Hc, Hw | exact Hws].
Qed.

Lemma split_word (sep : ascii) (w : string) :
  has_char sep w = false -> split sep w = [w].
Proof.
  induction w as [|c w IH]; simpl; [reflexivity |].
  intros H. apply orb_false_iff in H. destruct H as [Hc Hw].
  now rewrite Hc, (IH Hw).
Qed.

Lemma split_append (sep : ascii) (w s : string) :
  has_char sep w = false ->
  split sep (String.append w (String sep s)) = w :: split sep s.
Proof.
  induction w as [|c w IH]; simpl.
  - intros _. now rewrite Ascii.eqb_refl.
  - intros H. apply orb_false_iff in H. destruct H as [Hc Hw].
    now rewrite Hc, (IH Hw).
Qed.

(** Splitting what [join] glued gives the segments back. *)
Lemma split_join (sep : ascii) (keys : list string) :
  keys <> [] ->
  Forall (fun w => has_char sep w = false) keys ->
  split sep (join (String sep EmptyString) keys) = keys.
Proof.
  induction keys as [|w keys IH]; [contradiction |].
  intros _ Hall. inversion Hall as [|? ? Hw Hrest]; subst.
  destruct keys as [|w2 keys].
  - simpl. now apply split_word.
  - change (join (String sep EmptyString) (w :: w2 :: keys))
      with (String.append w
              (String sep (join (String sep EmptyString) (w2 :: keys)))).
    rewrite (split_append sep w _ Hw). f_equal.
    apply IH; [discriminate | exact Hrest].
Qed.

Lemma obj_at_insert_eq (h : heap) (l : loc) (o : object) :
  obj_at (<[l := o]> h) l = o.
Proof. unfold obj_at. now rewrite lookup_insert_eq. Qed.

Lemma obj_at_insert_ne (h : heap) (l l' : loc) (o : object) :
  l <> l' -> obj_at (<[l := o]> h) l' = obj_at h l'.
Proof. intros Hne. unfold obj_at. now rewrite lookup_insert_ne. Qed.

Lemma alloc_fresh (o : object) (h : heap) (l : loc) (h' : heap) :
  alloc o h = (l, h') -> h !! l = None /\ h' = <[l := o]> h.
Proof.
  unfold alloc. intros [= <- <-]. split; [| reflexivity].
  apply not_elem_of_dom. apply is_fresh.
Qed.

Lemma obj_at_alloc_empty (h : heap) (n m : loc) :
  h !! n = None -> obj_at (<[n := empty_object]> h) m = obj_at h m.
Proof.
  intros Hn. unfold obj_at. destruct (decide (n = m)) as [<- | Hne].
  - now rewrite lookup_insert_eq, Hn.
  - now rewrite lookup_insert_ne.
Qed.

Lemma obj_at_set_field_eq (h : heap) (l : loc) (k : string) (v : value) :
  obj_at (set_field l k v h) l
  = Obj (okind (obj_at h l)) (<[k := v]> (ofields (obj_at h l))).
Proof. unfold set_field. apply obj_at_insert_eq. Qed.

Lemma obj_at_set_field_ne (h : heap) (l m : loc) (k : string) (v : value) :
  l <> m -> obj_at (set_field l k v h) m = obj_at h m.
Proof. intros Hne. unfold set_field. now apply obj_at_insert_ne. Qed.

(** Assigning a field changes the kind of no object. *)
Lemma okind_set_field (h : heap) (l m : loc) (k : string) (v : value) :
  okind (obj_at (set_field l k v h) m) = okind (obj_at h m).
Proof.
  destruct (decide (l = m)) as [<- | Hne].
  - now rewrite obj_at_set_field_eq.
  - now rewrite obj_at_set_field_ne.
Qed.

Lemma field_set_field_eq (h : heap) (l : loc) (k : string) (v : value) :
  field (set_field l k v h) l k = v.
Proof. unfold field. rewrite obj_at_set_field_eq. simpl. now rewrite lookup_insert_eq. Qed.

Lemma field_set_field_ne (h : heap) (l m : loc) (k k' : string) (v : value) :
  l <> m \/ k <> k' -> field (set_field l k v h) m k' = field h m k'.
Proof.
  intros Hne. unfold field. destruct (decide (l = m)) as [<- | Hlm].
  - destruct Hne as [Hne | Hne]; [contradiction |].
    rewrite obj_at_set_field_eq. simpl. now rewrite lookup_insert_ne.
  - now rewrite obj_at_set_field_ne.
Qed.

(** Assigning to a field the truthy value it holds changes nothing. *)
Lemma set_field_same (h : heap) (l : loc) (k : string) :
  truthy (field h l k) = true -> set_field l k (field h l k) h = h.
Proof.
  unfold set_field, field, obj_at. intros Ht.
  destruct (h !! l) as [[kd fs]|] eqn:Hl; simpl in *.
  - destruct (fs !! k) as [old|] eqn:Hk; simpl in *; [| discriminate].
    rewrite (insert_id fs k old Hk). now apply insert_id.
  - rewrite lookup_empty in Ht. discriminate.
Qed.

Section Facts.

Variable reg : registry.
Variable invoke : fun_id -> heap -> value * heap.

Lemma force_returns (v : value) (h : heap) :
  exists r h', force invoke v h = Ret r h'.
Proof.
  unfold force. destruct (as_Function h v) as [f|]; [| eauto].
  destruct (invoke f h) as [r h']. eauto.
Qed.

(** The traversals raise nothing but the runtime's [TypeError]. *)
Lemma performRead_throws (fuel : nat) :
  forall keys current h e h',
    performRead invoke fuel keys current h = Throw e h' -> e = TypeError.
Proof.
  induction fuel as [|fuel IH]; intros keys current h e h'; simpl;
    [discriminate |].
  destruct (get_prop h current (key0 keys)) as [v|e0] eqn:Hg.
  - destruct (instanceof_Store h v); [apply IH |].
    destruct (as_Function h v) as [f|].
    + destruct (invoke f h) as [r h1].
      destruct (Nat.eqb (length keys) 1); [discriminate | apply IH].
    + destruct (Nat.ltb 1 (length keys)); [apply IH | discriminate].
  - intros [= <- _]. destruct current; simpl in Hg; congruence.
Qed.

Lemma set_prop_throws (current : value) (key : string) (v : value)
    (h : heap) (e : error) (h' : heap) :
  set_prop current key v h = Throw e h' -> e = TypeError.
Proof. destruct current; simpl; congruence. Qed.

Lemma get_prop_err (h : heap) (current : value) (key : string) (e : error) :
  get_prop h current key = Err e -> e = TypeError.
Proof. destruct current; simpl; congruence. Qed.

Lemma performWrite_throws (keys : list string) :
  forall v current h e h',
    performWrite keys v current h = Throw e h' -> e = TypeError.
Proof.
  induction keys as [|k rest IH]; intros v current h e h'.
  - simpl. apply set_prop_throws.
  - destruct rest as [|k2 rest]; [simpl; apply set_prop_throws |].
    cbn [performWrite].
    destruct (get_prop h current (key0 (k :: k2 :: rest))) as [old|e0] eqn:Hg.
    + destruct (instanceof_Store h old); [apply IH |].
      destruct (truthy old).
      * destruct (set_prop current (key0 (k :: k2 :: rest)) old h)
          as [u h2|e2 h2|] eqn:Hs; [apply IH | | discriminate].
        intros [= <- _]. eapply set_prop_throws, Hs.
      * destruct (alloc empty_object h) as [l h1].
        destruct (set_prop current (key0 (k :: k2 :: rest)) (VRef l) h1)
          as [u h2|e2 h2|] eqn:Hs; [apply IH | | discriminate].
        intros [= <- _]. eapply set_prop_throws, Hs.
    + intros [= <- _]. eapply get_prop_err, Hg.
Qed.

End Facts.

(** ** Declaring permissions *)

(** Declarations keep the registry within the four permissions. *)
Lemma declare_registry_ok (permission : option string) (target : proto)
    (key : string) (reg : registry) :
  registry_ok reg -> registry_ok (declare permission target key reg).2.
Proof.
  intros Hok. unfold declare.
  destruct (Restrict permission) as [p|e] eqn:HR; simpl; [| exact Hok].
  assert (Hp : In p permissions).
  { unfold Restrict in HR. destruct permission as [q|].
    - destruct (String.eqb_spec q ""); simpl in HR.
      + injection HR as <-. simpl. auto.
      + destruct (is_permission q) eqn:Hq; simpl in HR; [| discriminate].
        injection HR as <-. now apply is_permission_In.
    - injection HR as <-. simpl. auto. }
  intros k q. unfold decorator. rewrite lookup_insert.
  case_decide; [intros [= <-]; exact Hp | apply Hok].
Qed.

(** C8, as stated, fails on the empty string: it is outside the four
    permissions, yet [Restrict] takes it for a missing argument (it is
    falsy), raises nothing and registers 'none'. *)
Lemma declare_empty_string_counterexample :
  declare (Some "") 1%positive "secret" ∅
  = (Ok tt, {[ (1%positive, "secret") := "none" ]}) /\
  ~ (~ In "" permissions ->
     declare (Some "") 1%positive "secret" ∅
     = (Err (InvalidPermission ""), ∅)).
Proof.
  split; [reflexivity |].
  intros H.
  assert (Hout : ~ In "" permissions).
  { simpl. intros [H0|[H0|[H0|[H0|[]]]]]; discriminate H0. }
  specialize (H Hout). discriminate H.
Qed.

(** C8, amended: a non-empty permission outside 'r', 'w', 'rw', 'none'
    raises [InvalidPermission] at declaration time and the registry is left
    as it was; a missing permission, and likewise the empty string,
    registers 'none'; one of the four permissions is registered as given. *)
Theorem declare_validates (p : string) (target : proto) (key : string)
    (reg : registry) :
  (~ In p permissions -> p <> "" ->
     declare (Some p) target key reg = (Err (InvalidPermission p), reg)) /\
  declare None target key reg = (Ok tt, <[(target, key) := "none"]> reg) /\
  declare (Some "") target key reg = (Ok tt, <[(target, key) := "none"]> reg) /\
  (In p permissions ->
     declare (Some p) target key reg = (Ok tt, <[(target, key) := p]> reg)).
Proof.
  repeat split.
  - intros Hout Hne. unfold declare, Restrict.
    destruct (String.eqb_spec p ""); [contradiction |].
    destruct (is_permission p) eqn:Hp; [| reflexivity].
    apply is_permission_In in Hp. contradiction.
  - intros Hin. apply is_permission_In in Hin. unfold declare, Restrict.
    rewrite Hin, andb_false_r.
    destruct (String.eqb_spec p ""); [| reflexivity].
    subst p. discriminate Hin.
Qed.

Lemma declare_validates_witness :
  declare (Some "bogus") 1%positive "secret" ∅
  = (Err (InvalidPermission "bogus"), ∅).
Proof.
  apply (proj1 (declare_validates "bogus" 1%positive "secret" ∅)).
  - simpl. intros [H|[H|[H|[H|[]]]]]; discriminate H.
  - discriminate.
Defined.

(** ** Permission predicates *)

(** C4: without a declaration for the field, [allowedToRead] and
    [allowedToWrite] are the row of the store's [defaultPolicy] in the
    permission table; with a declaration they are the row of the declared
    permission, whatever [defaultPolicy] holds. *)
Theorem allowed_mirrors_policy (reg : registry) (h : heap) (this : loc)
    (key p : string) (rd wr : bool) :
  spec_table p = Some (rd, wr) ->
  (getMetadata reg (chain_of h this) key = None ->
   field h this "defaultPolicy" = VStr p ->
   allowedToRead reg h this key = Ok rd /\
   allowedToWrite reg h this key = Ok wr) /\
  (getMetadata reg (chain_of h this) key = Some p ->
   allowedToRead reg h this key = Ok rd /\
   allowedToWrite reg h this key = Ok wr).
Proof.
  intros Ht. unfold allowedToRead, allowedToWrite, allowedTo.
  apply spec_table_cases in Ht. split.
  - intros -> Hd. unfold defaultPolicy_includes. rewrite Hd.
    destruct Ht as [[-> [= -> ->]]|[[-> [= -> ->]]|[[-> [= -> ->]]|[-> [= -> ->]]]]];
      split; reflexivity.
  - intros ->.
    destruct Ht as [[-> [= -> ->]]|[[-> [= -> ->]]|[[-> [= -> ->]]|[-> [= -> ->]]]]];
      split; reflexivity.
Qed.

Lemma allowed_mirrors_policy_witness :
  allowedToRead ex_reg ex_heap 1%positive "inner" = Ok false /\
  allowedToWrite ex_reg ex_heap 1%positive "inner" = Ok false.
Proof.
  apply (proj1 (allowed_mirrors_policy ex_reg ex_heap 1%positive "inner"
                  "none" false false eq_refl)); reflexivity.
Defined.

(** ** Unfolding [read] and [write] by one call *)

Section Calls.

Variable reg : registry.
Variable invoke : fun_id -> heap -> value * heap.

Lemma read_delegated (fuel : nat) (this nested : loc) (path : string)
    (h : heap) :
  delegate h this (split colon path) = Some nested ->
  read reg invoke (S fuel) this path h
  = read reg invoke fuel nested (join ":" (tail (split colon path))) h.
Proof. intros Hd. cbn [read]. now rewrite Hd. Qed.

Lemma write_delegated (fuel : nat) (this nested : loc) (path : string)
    (v : value) (h : heap) :
  delegate h this (split colon path) = Some nested ->
  write reg (S fuel) this path v h
  = write reg fuel nested (join ":" (tail (split colon path))) v h.
Proof. intros Hd. cbn [write]. now rewrite Hd. Qed.

Lemma read_denied (fuel : nat) (this : loc) (path : string) (h : heap) :
  delegate h this (split colon path) = None ->
  allowedToRead reg h this (key0 (split colon path)) = Ok false ->
  read reg invoke (S fuel) this path h = Throw NoPermissionRead h.
Proof. intros Hd Ha. cbn [read]. now rewrite Hd, Ha. Qed.

Lemma read_allowed (fuel : nat) (this : loc) (path : string) (h : heap) :
  delegate h this (split colon path) = None ->
  allowedToRead reg h this (key0 (split colon path)) = Ok true ->
  read reg invoke (S fuel) this path h
  = match (if Nat.ltb 1 (length (split colon path))
           then performRead invoke fuel (split colon path) (VRef this) h
           else Ret (field h this (key0 (split colon path))) h) with
    | Ret r h' => force invoke r h'
    | Throw e h' => Throw e h'
    | OutOfFuel => OutOfFuel
    end.
Proof. intros Hd Ha. cbn [read]. now rewrite Hd, Ha. Qed.

Lemma write_allowed (fuel : nat) (this : loc) (path : string) (v : value)
    (h : heap) :
  delegate h this (split colon path) = None ->
  allowedToWrite reg h this (key0 (split colon path)) = Ok true ->
  write reg (S fuel) this path v h
  = match performWrite (split colon path) v (VRef this) h with
    | Ret _ h' => Ret v h'
    | Throw e h' => Throw e h'
    | OutOfFuel => OutOfFuel
    end.
Proof. intros Hd Ha. cbn [write]. now rewrite Hd, Ha. Qed.

(** Past its own permission check, [read] raises only [TypeError]. *)
Lemma read_allowed_not_denied (fuel : nat) (this : loc) (path : string)
    (h : heap) :
  delegate h this (split colon path) = None ->
  allowedToRead reg h this (key0 (split colon path)) = Ok true ->
  ~ denied (read reg invoke fuel this path h).
Proof.
  intros Hd Ha (e & h' & Hr & Hp).
  destruct fuel as [|fuel]; [discriminate Hr |].
  rewrite (read_allowed _ _ _ _ Hd Ha) in Hr.
  destruct (Nat.ltb 1 (length (split colon path))).
  - destruct (performRead invoke fuel (split colon path) (VRef this) h)
      as [r h1|e1 h1|] eqn:Hpr.
    + destruct (force_returns invoke r h1) as (r' & h2 & Hf). congruence.
    + apply performRead_throws in Hpr. injection Hr as <- _. subst e1.
      destruct Hp; discriminate.
    + discriminate.
  - destruct (force_returns invoke (field h this (key0 (split colon path))) h)
      as (r' & h2 & Hf). congruence.
Qed.

Lemma write_allowed_not_denied (fuel : nat) (this : loc) (path : string)
    (v : value) (h : heap) :
  delegate h this (split colon path) = None ->
  allowedToWrite reg h this (key0 (split colon path)) = Ok true ->
  ~ denied (write reg fuel this path v h).
Proof.
  intros Hd Ha (e & h' & Hr & Hp).
  destruct fuel as [|fuel]; [discriminate Hr |].
  rewrite (write_allowed _ _ _ _ _ Hd Ha) in Hr.
  destruct (performWrite (split colon path) v (VRef this) h)
    as [u h1|e1 h1|] eqn:Hpw; try discriminate.
  apply performWrite_throws in Hpw. injection Hr as <- _. subst e1.
  destruct Hp; discriminate.
Qed.

End Calls.

(** One step of [performWrite] with segments left after the current one. *)
Lemma performWrite_step (k k2 : string) (rest : list string) (v : value)
    (current : value) (h : heap) :
  performWrite (k :: k2 :: rest) v current h
  = match get_prop h current k with
    | Err e => Throw e h
    | Ok old =>
        if instanceof_Store h old then performWrite (k2 :: rest) v old h
        else
          let '(new, h1) :=
            if truthy old then (old, h)
            else let '(l, h1) := alloc empty_object h in (VRef l, h1) in
          match set_prop current k new h1 with
          | Ret _ h2 => performWrite (k2 :: rest) v new h2
          | Throw e h2 => Throw e h2
          | OutOfFuel => OutOfFuel
          end
    end.
Proof. reflexivity. Qed.

(** ** The call-depth budget

    A result obtained within some budget is the result within any larger
    one, and [write] always returns within a budget of one call per
    segment. *)

Section Fuel.

Variable reg : registry.
Variable invoke : fun_id -> heap -> value * heap.

Lemma performRead_S (fuel : nat) (keys : list string) (current : value)
    (h : heap) :
  performRead invoke (S fuel) keys current h
  = match get_prop h current (key0 keys) with
    | Err e => Throw e h
    | Ok v =>
        if instanceof_Store h v then performRead invoke fuel (tail keys) v h
        else
          match as_Function h v with
          | Some f =>
              let '(r, h') := invoke f h in
              if Nat.eqb (length keys) 1 then Ret r h'
              else performRead invoke fuel (tail keys) r h'
          | None =>
              if Nat.ltb 1 (length keys)
              then performRead invoke fuel (tail keys) v h
              else Ret v h
          end
    end.
Proof. reflexivity. Qed.

Lemma performRead_fuel_mono (fuel : nat) :
  forall keys current h o,
    performRead invoke fuel keys current h = o -> o <> OutOfFuel ->
    performRead invoke (S fuel) keys current h = o.
Proof.
  induction fuel as [|fuel IH]; intros keys current h o Hr Hne.
  - simpl in Hr. congruence.
  - rewrite performRead_S in Hr. rewrite performRead_S.
    destruct (get_prop h current (key0 keys)) as [v|e]; [| exact Hr].
    destruct (instanceof_Store h v); [now apply IH |].
    destruct (as_Function h v) as [f|].
    + destruct (invoke f h) as [r h1].
      destruct (Nat.eqb (length keys) 1); [exact Hr | now apply IH].
    + destruct (Nat.ltb 1 (length keys)); [now apply IH | exact Hr].
Qed.

Lemma read_fuel_mono (fuel : nat) :
  forall this path h o,
    read reg invoke fuel this path h = o -> o <> OutOfFuel ->
    read reg invoke (S fuel) this path h = o.
Proof.
  induction fuel as [|fuel IH]; intros this path h o Hr Hne.
  - simpl in Hr. congruence.
  - destruct (delegate h this (split colon path)) as [nested|] eqn:Hd.
    + rewrite (read_delegated reg invoke _ _ _ _ _ Hd) in Hr.
      rewrite (read_delegated reg invoke _ _ _ _ _ Hd). now apply IH.
    + destruct (allowedToRead reg h this (key0 (split colon path)))
        as [[|]|e] eqn:Ha.
      * rewrite (read_allowed reg invoke _ _ _ _ Hd Ha) in Hr.
        rewrite (read_allowed reg invoke _ _ _ _ Hd Ha).
        destruct (Nat.ltb 1 (length (split colon path))); [| exact Hr].
        destruct (performRead invoke fuel (split colon path) (VRef this) h)
          as [r h1|e1 h1|] eqn:Hp; [| | congruence];
          now rewrite (performRead_fuel_mono _ _ _ _ _ Hp).
      * rewrite (read_denied reg invoke _ _ _ _ Hd Ha) in Hr.
        now rewrite (read_denied reg invoke _ _ _ _ Hd Ha).
      * cbn [read] in Hr |- *. now rewrite Hd, Ha in Hr |- *.
Qed.

Lemma performWrite_returns (keys : list string) :
  forall v current h, performWrite keys v current h <> OutOfFuel.
Proof.
  induction keys as [|k rest IH]; intros v current h.
  - simpl. destruct current; discriminate.
  - destruct rest as [|k2 rest]; [simpl; destruct current; discriminate |].
    rewrite performWrite_step.
    destruct (get_prop h current k) as [old|e]; [| discriminate].
    destruct (instanceof_Store h old); [apply IH |].
    destruct (truthy old).
    + destruct (set_prop current k old h) as [u h2|e2 h2|] eqn:Hs;
        [apply IH | discriminate |].
      destruct current; discriminate.
    + destruct (alloc empty_object h) as [l h1].
      destruct (set_prop current k (VRef l) h1) as [u h2|e2 h2|] eqn:Hs;
        [apply IH | discriminate |].
      destruct current; discriminate.
Qed.

(** [write] returns: one call per segment is enough. *)
Lemma write_returns (fuel : nat) :
  forall this path v h,
    length (split colon path) <= fuel ->
    write reg fuel this path v h <> OutOfFuel.
Proof.
  induction fuel as [|fuel IH]; intros this path v h Hlen.
  - pose proof (split_nonempty colon path) as Hne.
    destruct (split colon path); [contradiction | simpl in Hlen; lia].
  - destruct (delegate h this (split colon path)) as [nested|] eqn:Hd.
    + rewrite (write_delegated reg _ _ _ _ _ _ Hd). apply IH.
      pose proof (split_no_sep colon path) as Hall.
      unfold delegate in Hd.
      destruct (split colon path) as [|k [|k2 rest]]; try discriminate.
      inversion Hall as [|? ? _ Hrest]; subst.
      pose proof (split_join colon (k2 :: rest) ltac:(discriminate) Hrest)
        as Hsj.
      change (String colon EmptyString) with ":" in Hsj.
      cbn [tail]. rewrite Hsj. simpl in Hlen |- *. lia.
    + cbn [write]. rewrite Hd.
      destruct (allowedToWrite reg h this (key0 (split colon path)))
        as [[|]|e]; try discriminate.
      pose proof (performWrite_returns (split colon path) v (VRef this) h).
      destruct (performWrite (split colon path) v (VRef this) h);
        [discriminate | discriminate | contradiction].
Qed.

End Fuel.

(** ** Calls resolved on the object *)

Lemma data_key_spec (k : string) :
  data_key k = true <-> ~ In k reserved_names /\ is_index k = false.
Proof.
  unfold data_key. rewrite andb_true_iff, !negb_true_iff. split.
  - intros [Hex Hi]. split; [| exact Hi]. intros Hin.
    assert (Ht : existsb (String.eqb k) reserved_names = true).
    { apply existsb_exists. exists k. split; [exact Hin | apply String.eqb_refl]. }
    congruence.
  - intros [Hnin Hi]. split; [| exact Hi].
    destruct (existsb (String.eqb k) reserved_names) eqn:Hex; [| reflexivity].
    apply existsb_exists in Hex. destruct Hex as (x & Hx & He).
    apply String.eqb_eq in He. subst x. contradiction.
Qed.

Lemma data_key_not_method (k : string) :
  data_key k = true -> ~ In k method_names.
Proof.
  intros Hk Hin. apply data_key_spec in Hk. apply (proj1 Hk).
  unfold reserved_names. apply in_or_app. right. apply in_or_app. now left.
Qed.

Lemma data_key_not_proto (k : string) : data_key k = true -> k <> "__proto__".
Proof.
  intros Hk ->. apply data_key_spec in Hk. apply (proj1 Hk). simpl. auto.
Qed.

Lemma unshadowed_spec (h : heap) (l : loc) :
  unshadowed h l = true <->
  forall name, In name method_names -> ofields (obj_at h l) !! name = None.
Proof.
  unfold unshadowed. rewrite forallb_forall. split.
  - intros H name Hin. specialize (H name Hin).
    destruct (ofields (obj_at h l) !! name); [discriminate | reflexivity].
  - intros H name Hin. now rewrite (H name Hin).
Qed.

Lemma lookup_method_own_None (h : heap) (l : loc) (name : string) :
  ofields (obj_at h l) !! name = None -> lookup_method h l name = Method.
Proof. intros Hn. unfold lookup_method. now rewrite Hn. Qed.

Lemma lookup_method_unshadowed (h : heap) (l : loc) (name : string) :
  unshadowed h l = true -> In name method_names ->
  lookup_method h l name = Method.
Proof.
  intros Hu Hin. apply lookup_method_own_None.
  now apply (proj1 (unshadowed_spec h l) Hu).
Qed.

Lemma unshadowed_same_fields (h h' : heap) (l : loc) :
  (forall name, In name method_names ->
     ofields (obj_at h' l) !! name = ofields (obj_at h l) !! name) ->
  unshadowed h' l = unshadowed h l.
Proof.
  unfold unshadowed. induction method_names as [|name names IH];
    intros Hsame; [reflexivity |].
  simpl. rewrite (Hsame name) by now left.
  rewrite IH; [reflexivity |]. intros n Hn. apply Hsame. now right.
Qed.

Lemma ofields_set_field_ne (h : heap) (l m : loc) (k name : string)
    (v : value) :
  k <> name ->
  ofields (obj_at (set_field l k v h) m) !! name
  = ofields (obj_at h m) !! name.
Proof.
  intros Hne. destruct (decide (l = m)) as [<- | Hlm].
  - rewrite obj_at_set_field_eq. simpl. now rewrite lookup_insert_ne.
  - now rewrite obj_at_set_field_ne.
Qed.

Lemma unshadowed_set_field (h : heap) (l m : loc) (k : string) (v : value) :
  ~ In k method_names ->
  unshadowed (set_field l k v h) m = unshadowed h m.
Proof.
  intros Hk. apply unshadowed_same_fields. intros name Hin.
  apply ofields_set_field_ne. intros ->. contradiction.
Qed.

Lemma unshadowed_alloc_empty (h : heap) (n m : loc) :
  h !! n = None ->
  unshadowed (<[n := empty_object]> h) m = unshadowed h m.
Proof.
  intros Hn. apply unshadowed_same_fields. intros name _.
  now rewrite obj_at_alloc_empty.
Qed.

Lemma heap_unshadowed_spec (h : heap) :
  heap_unshadowed h = true -> forall l, unshadowed h l = true.
Proof.
  unfold heap_unshadowed. rewrite forallb_forall. intros H l.
  unfold unshadowed, obj_at. destruct (h !! l) as [o|] eqn:Hl; simpl.
  - apply (H (l, o)). apply list_elem_of_In. now apply elem_of_map_to_list.
  - reflexivity.
Qed.

Section DynCalls.

Variable reg : registry.
Variable invoke : fun_id -> heap -> value * heap.

Lemma Dyn_read_S (fuel : nat) (this : loc) (path : string) (h : heap) :
  Dyn.read reg invoke (S fuel) this path h
  = match delegate h this (split colon path) with
    | Some nested =>
        match lookup_method h nested "read" with
        | Method =>
            Dyn.read reg invoke fuel nested
              (join ":" (tail (split colon path))) h
        | Stored g => let '(r, h') := invoke g h in Ret r h'
        | NotCallable => Throw TypeError h
        end
    | None =>
        match Dyn.allowedTo_call reg invoke "allowedToRead" "r" h this
                (key0 (split colon path)) with
        | Throw e h1 => Throw e h1
        | OutOfFuel => OutOfFuel
        | Ret false h1 => Throw NoPermissionRead h1
        | Ret true h1 =>
            match (if Nat.ltb 1 (length (split colon path))
                   then
                     match lookup_method h1 this "performRead" with
                     | Method =>
                         Dyn.performRead invoke fuel this (split colon path)
                           (VRef this) h1
                     | Stored g => let '(r, h') := invoke g h1 in Ret r h'
                     | NotCallable => Throw TypeError h1
                     end
                   else Ret (field h1 this (key0 (split colon path))) h1) with
            | Ret r h' => force invoke r h'
            | Throw e h' => Throw e h'
            | OutOfFuel => OutOfFuel
            end
        end
    end.
Proof. reflexivity. Qed.

Lemma Dyn_write_S (fuel : nat) (this : loc) (path : string) (v : value)
    (h : heap) :
  Dyn.write reg invoke (S fuel) this path v h
  = match delegate h this (split colon path) with
    | Some nested =>
        match lookup_method h nested "write" with
        | Method =>
            Dyn.write reg invoke fuel nested
              (join ":" (tail (split colon path))) v h
        | Stored g => let '(r, h') := invoke g h in Ret r h'
        | NotCallable => Throw TypeError h
        end
    | None =>
        match Dyn.allowedTo_call reg invoke "allowedToWrite" "w" h this
                (key0 (split colon path)) with
        | Throw e h1 => Throw e h1
        | OutOfFuel => OutOfFuel
        | Ret false h1 => Throw NoPermissionWrite h1
        | Ret true h1 =>
            match (match lookup_method h1 this "performWrite" with
                   | Method =>
                       Dyn.performWrite invoke this (split colon path) v
                         (VRef this) h1
                   | Stored g => let '(_, h') := invoke g h1 in Ret tt h'
                   | NotCallable => Throw TypeError h1
                   end) with
            | Ret _ h' => Ret v h'
            | Throw e h' => Throw e h'
            | OutOfFuel => OutOfFuel
            end
        end
    end.
Proof. reflexivity. Qed.

Lemma Dyn_performWrite_step (this : loc) (k k2 : string) (rest : list string)
    (v : value) (current : value) (h : heap) :
  Dyn.performWrite invoke this (k :: k2 :: rest) v current h
  = match get_prop h current k with
    | Err e => Throw e h
    | Ok old =>
        if instanceof_Store h old then
          match lookup_method h this "performWrite" with
          | Method => Dyn.performWrite invoke this (k2 :: rest) v old h
          | Stored g => let '(_, h') := invoke g h in Ret tt h'
          | NotCallable => Throw TypeError h
          end
        else
          let '(new, h1) :=
            if truthy old then (old, h)
            else let '(l, h1) := alloc empty_object h in (VRef l, h1) in
          match set_prop current k new h1 with
          | Ret _ h2 =>
              match lookup_method h2 this "performWrite" with
              | Method => Dyn.performWrite invoke this (k2 :: rest) v new h2
              | Stored g => let '(_, h') := invoke g h2 in Ret tt h'
              | NotCallable => Throw TypeError h2
              end
          | Throw e h2 => Throw e h2
          | OutOfFuel => OutOfFuel
          end
    end.
Proof. reflexivity. Qed.

(** The check reaches the method of the class when no own field hides it. *)
Lemma allowedTo_call_method (name c : string) (h : heap) (this : loc)
    (key : string) :
  ofields (obj_at h this) !! name = None ->
  Dyn.allowedTo_call reg invoke name c h this key
  = match allowedTo reg c h this key with
    | Ok b => Ret b h
    | Err e => Throw e h
    end.
Proof.
  intros Hn. unfold Dyn.allowedTo_call.
  now rewrite (lookup_method_own_None h this name Hn).
Qed.


Lemma Dyn_write_denied (fuel : nat) (this : loc) (path : string) (v : value)
    (h : heap) :
  delegate h this (split colon path) = None ->
  ofields (obj_at h this) !! "allowedToWrite" = None ->
  allowedToWrite reg h this (key0 (split colon path)) = Ok false ->
  Dyn.write reg invoke (S fuel) this path v h = Throw NoPermissionWrite h.
Proof.
  intros Hd Hn Ha. rewrite Dyn_write_S, Hd, (allowedTo_call_method _ _ _ _ _ Hn).
  unfold allowedToWrite in Ha. now rewrite Ha.
Qed.

Lemma Dyn_read_allowed (fuel : nat) (this : loc) (path : string) (h : heap) :
  delegate h this (split colon path) = None ->
  ofields (obj_at h this) !! "allowedToRead" = None ->
  ofields (obj_at h this) !! "performRead" = None ->
  allowedToRead reg h this (key0 (split colon path)) = Ok true ->
  Dyn.read reg invoke (S fuel) this path h
  = match (if Nat.ltb 1 (length (split colon path))
           then Dyn.performRead invoke fuel this (split colon path)
                  (VRef this) h
           else Ret (field h this (key0 (split colon path))) h) with
    | Ret r h' => force invoke r h'
    | Throw e h' => Throw e h'
    | OutOfFuel => OutOfFuel
    end.
Proof.
  intros Hd Hn Hp Ha.
  rewrite Dyn_read_S, Hd, (allowedTo_call_method _ _ _ _ _ Hn).
  unfold allowedToRead in Ha. rewrite Ha.
  now rewrite (lookup_method_own_None h this "performRead" Hp).
Qed.

Lemma Dyn_write_allowed (fuel : nat) (this : loc) (path : string)
    (v : value) (h : heap) :
  delegate h this (split colon path) = None ->
  ofields (obj_at h this) !! "allowedToWrite" = None ->
  ofields (obj_at h this) !! "performWrite" = None ->
  allowedToWrite reg h this (key0 (split colon path)) = Ok true ->
  Dyn.write reg invoke (S fuel) this path v h
  = match Dyn.performWrite invoke this (split colon path) v (VRef this) h with
    | Ret _ h' => Ret v h'
    | Throw e h' => Throw e h'
    | OutOfFuel => OutOfFuel
    end.
Proof.
  intros Hd Hn Hp Ha.
  rewrite Dyn_write_S, Hd, (allowedTo_call_method _ _ _ _ _ Hn).
  unfold allowedToWrite in Ha. rewrite Ha.
  now rewrite (lookup_method_own_None h this "performWrite" Hp).
Qed.

Lemma Dyn_performRead_S (fuel : nat) (this : loc) (keys : list string)
    (current : value) (h : heap) :
  Dyn.performRead invoke (S fuel) this keys current h
  = match get_prop h current (key0 keys) with
    | Err e => Throw e h
    | Ok v =>
        if instanceof_Store h v then
          match lookup_method h this "performRead" with
          | Method => Dyn.performRead invoke fuel this (tail keys) v h
          | Stored g => let '(r, h') := invoke g h in Ret r h'
          | NotCallable => Throw TypeError h
          end
        else
          match as_Function h v with
          | Some f =>
              if Nat.eqb (length keys) 1
              then let '(r, h') := invoke f h in Ret r h'
              else
                let c := lookup_method h this "performRead" in
                let '(r, h') := invoke f h in
                match c with
                | Method => Dyn.performRead invoke fuel this (tail keys) r h'
                | Stored g => let '(r, h') := invoke g h' in Ret r h'
                | NotCallable => Throw TypeError h'
                end
          | None =>
              if Nat.ltb 1 (length keys)
              then
                match lookup_method h this "performRead" with
                | Method => Dyn.performRead invoke fuel this (tail keys) v h
                | Stored g => let '(r, h') := invoke g h in Ret r h'
                | NotCallable => Throw TypeError h
                end
              else Ret v h
          end
    end.
Proof. reflexivity. Qed.


(** The traversal of [write] ends, with a return or a [TypeError]. *)
Lemma Dyn_performWrite_outcome (this : loc) (keys : list string) (v : value) :
  forall current h,
    (exists h', Dyn.performWrite invoke this keys v current h = Ret tt h') \/
    (exists h', Dyn.performWrite invoke this keys v current h
                = Throw TypeError h').
Proof.
  assert (Hset : forall current k w h,
            (exists h', set_prop current k w h = Ret tt h') \/
            (exists h', set_prop current k w h = Throw TypeError h')).
  { intros current k w h. destruct current; simpl; eauto. }
  induction keys as [|k keys IH]; intros current h; [apply Hset |].
  destruct keys as [|k2 rest]; [apply Hset |].
  rewrite Dyn_performWrite_step.
  destruct (get_prop h current k) as [old|e] eqn:Hg.
  - destruct (instanceof_Store h old).
    + destruct (lookup_method h this "performWrite") as [|g|]; [apply IH | |].
      * destruct (invoke g h) as [r h']. eauto.
      * eauto.
    + destruct (if truthy old then (old, h)
                else let '(l, h1) := alloc empty_object h in (VRef l, h1))
        as [new h1].
      destruct (Hset current k new h1) as [[h2 H2] | [h2 H2]]; rewrite H2.
      * destruct (lookup_method h2 this "performWrite") as [|g|];
          [apply IH | |].
        -- destruct (invoke g h2) as [r h']. eauto.
        -- eauto.
      * eauto.
  - right. exists h. destruct current; simpl in Hg; congruence.
Qed.

End DynCalls.

(** ** Construction *)

(** C10: a newly constructed store has [defaultPolicy] 'rw'; while its
    class declares nothing, [allowedToRead] and [allowedToWrite] are true
    for every field name, and no [read] or [write] on it is refused. *)
Theorem new_Store_allows_everything (reg : registry)
    (invoke : fun_id -> heap -> value * heap) (chain : list proto)
    (h : heap) (s : loc) (h' : heap) :
  new_Store chain h = (s, h') ->
  (forall key, getMetadata reg chain key = None) ->
  field h' s "defaultPolicy" = VStr "rw" /\
  (forall key, allowedToRead reg h' s key = Ok true /\
               allowedToWrite reg h' s key = Ok true) /\
  (forall fuel path v, ~ denied (read reg invoke fuel s path h') /\
                       ~ denied (write reg fuel s path v h')).
Proof.
  intros Hnew Hnone. unfold new_Store in Hnew.
  apply alloc_fresh in Hnew. destruct Hnew as [_ ->].
  set (o := Obj (KStore chain) {[ "defaultPolicy" := VStr "rw" ]}).
  assert (Hobj : obj_at (<[s := o]> h) s = o) by apply obj_at_insert_eq.
  assert (Hpol : field (<[s := o]> h) s "defaultPolicy" = VStr "rw").
  { unfold field. rewrite Hobj. reflexivity. }
  assert (Hchain : chain_of (<[s := o]> h) s = chain).
  { unfold chain_of. now rewrite Hobj. }
  assert (Hall : forall c key, c = "r" \/ c = "w" ->
            allowedTo reg c (<[s := o]> h) s key = Ok true).
  { intros c key Hc. unfold allowedTo. rewrite Hchain, Hnone.
    unfold defaultPolicy_includes. rewrite Hpol.
    destruct Hc as [-> | ->]; reflexivity. }
  assert (Hdel : forall keys, delegate (<[s := o]> h) s keys = None).
  { intros keys. unfold delegate.
    destruct (Nat.ltb 1 (length keys)); [| reflexivity].
    unfold field. rewrite Hobj. simpl.
    destruct (decide (key0 keys = "defaultPolicy")) as [-> | Hne].
    - reflexivity.
    - rewrite lookup_singleton_ne by congruence. reflexivity. }
  split; [exact Hpol |]. split.
  - intros key. split; apply Hall; auto.
  - intros fuel path v. split.
    + apply read_allowed_not_denied; [apply Hdel | apply Hall; auto].
    + apply write_allowed_not_denied; [apply Hdel | apply Hall; auto].
Qed.

Lemma new_Store_allows_everything_witness :
  field (new_Store [1%positive] ∅).2 (new_Store [1%positive] ∅).1
        "defaultPolicy" = VStr "rw".
Proof.
  apply (new_Store_allows_everything ∅ ex_invoke [1%positive] ∅
           (new_Store [1%positive] ∅).1 (new_Store [1%positive] ∅).2).
  - reflexivity.
  - intros key. reflexivity.
Defined.

(** ** Refused writes *)

(** A declared read-only field, or an undeclared one under a default policy
    without 'w', is not writable. *)
Lemma forbids_write (reg : registry) (h : heap) (this : loc) (key p : string) :
  p = "r" \/ p = "none" ->
  getMetadata reg (chain_of h this) key = Some p \/
  (getMetadata reg (chain_of h this) key = None /\
   field h this "defaultPolicy" = VStr p) ->
  allowedToWrite reg h this key = Ok false.
Proof.
  intros Hp Hcase. unfold allowedToWrite, allowedTo.
  destruct Hcase as [-> | [-> Hd]].
  - destruct Hp as [-> | ->]; reflexivity.
  - unfold defaultPolicy_includes. rewrite Hd.
    destruct Hp as [-> | ->]; reflexivity.
Qed.

(** C5, as stated, fails on a store whose own field [allowedToWrite] holds
    a function: [write] calls [this.allowedToWrite], which is then that
    function.  The field is put there by a permitted [write]; after it,
    [secret], declared 'r', is overwritten with 9 and no error is
    raised. *)
Lemma write_shadowed_check_counterexample :
  Dyn.write ex_secret_reg ex_yes 1 1%positive "allowedToWrite"
    (VRef 3%positive) ex_open
  = Ret (VRef 3%positive) ex_hidden /\
  getMetadata ex_secret_reg (chain_of ex_hidden 1%positive) "secret"
  = Some "r" /\
  allowedToWrite ex_secret_reg ex_hidden 1%positive "secret" = Ok false /\
  delegate ex_hidden 1%positive (split colon "secret") = None /\
  field ex_hidden 1%positive "secret" = VNum 1 /\
  (exists h',
     Dyn.write ex_secret_reg ex_yes 1 1%positive "secret" (VNum 9) ex_hidden
     = Ret (VNum 9) h' /\
     field h' 1%positive "secret" = VNum 9) /\
  ~ denied (Dyn.write ex_secret_reg ex_yes 1 1%positive "secret" (VNum 9)
              ex_hidden).
Proof.
  split; [vm_compute; reflexivity |]. split; [reflexivity |].
  split; [reflexivity |]. split; [reflexivity |]. split; [reflexivity |].
  split.
  - eexists. split; [reflexivity | vm_compute; reflexivity].
  - intros (e & h' & He & _). vm_compute in He. discriminate He.
Qed.

(** C5, amended: on a store that has no own field named [allowedToWrite],
    when the first segment does not lead into a nested store and its
    effective permission forbids writing (in particular when it is
    declared 'r' or 'none', or is undeclared under such a default policy),
    [write] raises the permission error and the heap, hence every field of
    the store, is as before.  The first segment is not "__proto__": there
    the code tests the prototype of the store, not a field, for being a
    store. *)
Theorem write_denied_leaves_store (reg : registry)
    (invoke : fun_id -> heap -> value * heap) (fuel : nat) (this : loc)
    (path : string) (v : value) (h : heap) :
  delegate h this (split colon path) = None ->
  key0 (split colon path) <> "__proto__" ->
  ofields (obj_at h this) !! "allowedToWrite" = None ->
  (allowedToWrite reg h this (key0 (split colon path)) = Ok false ->
   Dyn.write reg invoke (S fuel) this path v h = Throw NoPermissionWrite h) /\
  (forall p,
     p = "r" \/ p = "none" ->
     getMetadata reg (chain_of h this) (key0 (split colon path)) = Some p \/
     (getMetadata reg (chain_of h this) (key0 (split colon path)) = None /\
      field h this "defaultPolicy" = VStr p) ->
     Dyn.write reg invoke (S fuel) this path v h = Throw NoPermissionWrite h) /\
  PermissionDenied NoPermissionWrite.
Proof.
  intros Hd _ Hown.
  assert (Hw : allowedToWrite reg h this (key0 (split colon path)) = Ok false ->
               Dyn.write reg invoke (S fuel) this path v h
               = Throw NoPermissionWrite h)
    by now apply Dyn_write_denied.
  split; [exact Hw |]. split; [| right; reflexivity].
  intros p Hp Hcase. apply Hw. eapply forbids_write; eassumption.
Qed.

Lemma write_denied_leaves_store_witness :
  Dyn.write ex_reg ex_invoke 1 1%positive "inner" (VNum 0) ex_heap
  = Throw NoPermissionWrite ex_heap.
Proof.
  apply (proj1 (write_denied_leaves_store ex_reg ex_invoke 0 1%positive
                  "inner" (VNum 0) ex_heap eq_refl ltac:(discriminate)
                  eq_refl)).
  reflexivity.
Defined.

(** ** Delegation to a nested store *)



(** ** Traversal on read *)

Section Traversal.

Variable reg : registry.
Variable invoke : fun_id -> heap -> value * heap.

Lemma as_Function_not_Store (h : heap) (v : value) (f : fun_id) :
  as_Function h v = Some f -> instanceof_Store h v = false.
Proof.
  unfold as_Function, instanceof_Store, as_Store, kind_of.
  destruct v; try discriminate.
  destruct (okind (obj_at h l)); try discriminate. reflexivity.
Qed.



(** A missing last field reads as [undefined]. *)
Lemma performRead_missing_last (fuel : nat) (current : value) (k : string)
    (h : heap) :
  get_prop h current k = Ok VUndef ->
  performRead invoke (S fuel) [k] current h = Ret VUndef h.
Proof. intros Hg. cbn [performRead key0 hd]. now rewrite Hg. Qed.

(** A missing inner field: the next step reads a property of [undefined]. *)
Lemma performRead_missing_inner (fuel : nat) (current : value)
    (k k2 : string) (rest : list string) (h : heap) :
  get_prop h current k = Ok VUndef ->
  performRead invoke (S (S fuel)) (k :: k2 :: rest) current h
  = Throw TypeError h.
Proof. intros Hg. cbn [performRead key0 hd]. now rewrite Hg. Qed.


(** Any other value at the last segment is the result. *)
Lemma performRead_plain_last (fuel : nat) (current : value) (k : string)
    (h : heap) (v : value) :
  get_prop h current k = Ok v ->
  as_Store h v = None -> as_Function h v = None ->
  performRead invoke (S fuel) [k] current h = Ret v h.
Proof.
  intros Hg Hs Hf. cbn [performRead key0 hd]. rewrite Hg.
  unfold instanceof_Store. now rewrite Hs, Hf.
Qed.

End Traversal.

(** C2 does not hold of the code: where [read] is permitted at the first
    segment and that field is missing, a path with further segments raises
    [TypeError] instead of returning [undefined], and so does the traversal
    at any depth when an inner segment is missing in the container
    reached. *)
Theorem read_missing_intermediate_throws (reg : registry)
    (invoke : fun_id -> heap -> value * heap) (fuel : nat) :
  (forall this path h k k2 rest,
     split colon path = k :: k2 :: rest ->
     field h this k = VUndef ->
     allowedToRead reg h this k = Ok true ->
     read reg invoke (S (S (S fuel))) this path h = Throw TypeError h) /\
  (forall current h k k2 rest,
     get_prop h current k = Ok VUndef ->
     performRead invoke (S (S fuel)) (k :: k2 :: rest) current h
     = Throw TypeError h).
Proof.
  split.
  - intros this path h k k2 rest Hs Hf Ha.
    rewrite read_allowed.
    + rewrite Hs. cbn [length Nat.ltb Nat.leb].
      rewrite performRead_missing_inner; [reflexivity | simpl; now rewrite Hf].
    + unfold delegate. rewrite Hs. cbn [length Nat.ltb Nat.leb key0 hd].
      now rewrite Hf.
    + now rewrite Hs.
  - intros current h k k2 rest. apply performRead_missing_inner.
Qed.

Lemma read_missing_intermediate_throws_witness :
  read ∅ ex_invoke 3 (new_Store [1%positive] ∅).1 "a:b"
       (new_Store [1%positive] ∅).2
  = Throw TypeError (new_Store [1%positive] ∅).2.
Proof.
  apply (proj1 (read_missing_intermediate_throws ∅ ex_invoke 0)
           (new_Store [1%positive] ∅).1 "a:b" (new_Store [1%positive] ∅).2
           "a" "b" []); reflexivity.
Defined.




(** ** Which permissions a call consults *)






(** ** Listing the entries *)

Section Entries.

Variable reg : registry.





Lemma elem_of_Object_keys (h : heap) (this : loc) (key : string) :
  key ∈ Object_keys h this <-> is_Some (ofields (obj_at h this) !! key).
Proof.
  unfold Object_keys. rewrite list_elem_of_fmap. split.
  - intros ([k v] & -> & Hin). apply elem_of_map_to_list in Hin. simpl. eauto.
  - intros [v Hv]. exists (key, v). split; [reflexivity |].
    now apply elem_of_map_to_list.
Qed.

End Entries.





(** ** Traversal on write *)

Lemma falsy_not_Store (h : heap) (v : value) :
  truthy v = false -> instanceof_Store h v = false.
Proof. destruct v; simpl; try reflexivity. discriminate. Qed.

(** A falsy entry is replaced by a new empty object and the write goes on
    inside it. *)
Lemma performWrite_vivify (l : loc) (k k2 : string) (rest : list string)
    (v : value) (h : heap) :
  truthy (field h l k) = false ->
  performWrite (k :: k2 :: rest) v (VRef l) h
  = performWrite (k2 :: rest) v (VRef (fresh (dom h)))
      (set_field l k (VRef (fresh (dom h)))
         (<[fresh (dom h) := empty_object]> h)).
Proof.
  intros Ht. rewrite performWrite_step. cbn [get_prop].
  rewrite (falsy_not_Store h _ Ht), Ht. reflexivity.
Qed.

(** The heap after writing [v] at "x:y" through a new object for [x]. *)
Lemma vivified_heap (h : heap) (this : loc) (x y : string) (v : value) :
  is_Some (h !! this) ->
  let n := fresh (dom h) in
  let h' := set_field n y v
              (set_field this x (VRef n) (<[n := empty_object]> h)) in
  h !! n = None /\
  (forall m, okind (obj_at h' m) = okind (obj_at h m)) /\
  field h' this x = VRef n /\
  obj_at h' n = Obj KPlain {[ y := v ]} /\
  (forall k, k <> x -> field h' this k = field h this k).
Proof.
  intros Hthis n h'.
  assert (Hn : h !! n = None) by (apply not_elem_of_dom, is_fresh).
  assert (Hne : n <> this).
  { intros Heq. rewrite Heq in Hn. rewrite Hn in Hthis. now destruct Hthis. }
  split; [exact Hn |]. split; [| split; [| split]].
  - intros m. unfold h'.
    now rewrite !okind_set_field, obj_at_alloc_empty.
  - unfold h'. rewrite field_set_field_ne by (left; exact Hne).
    apply field_set_field_eq.
  - unfold h'. rewrite obj_at_set_field_eq.
    rewrite obj_at_set_field_ne by congruence.
    rewrite obj_at_insert_eq. simpl. now rewrite insert_empty.
  - intros k Hk. unfold h'.
    rewrite field_set_field_ne by (left; exact Hne).
    rewrite field_set_field_ne by (right; congruence).
    unfold field. now rewrite obj_at_alloc_empty.
Qed.

Lemma as_Store_same_kind (h h' : heap) (v : value) :
  (forall m, okind (obj_at h' m) = okind (obj_at h m)) ->
  as_Store h' v = as_Store h v.
Proof. intros Hk. destruct v; simpl; try reflexivity. now rewrite Hk. Qed.

Lemma as_Function_same_kind (h h' : heap) (v : value) :
  (forall m, okind (obj_at h' m) = okind (obj_at h m)) ->
  as_Function h' v = as_Function h v.
Proof.
  intros Hk. unfold as_Function. destruct v; simpl; try reflexivity.
  now rewrite Hk.
Qed.

(** A permission granted on [x] survives an assignment to the field [x]. *)
Lemma allowedTo_after_write (reg : registry) (c : string) (h h' : heap)
    (this : loc) (x : string) :
  (forall m, okind (obj_at h' m) = okind (obj_at h m)) ->
  (forall k, k <> x -> field h' this k = field h this k) ->
  field h this x = VUndef ->
  allowedTo reg c h this x = Ok true ->
  allowedTo reg c h' this x = Ok true.
Proof.
  intros Hk Hf Hx. unfold allowedTo, chain_of. rewrite Hk.
  assert (Hdef : defaultPolicy_includes h this c = Ok true ->
                 defaultPolicy_includes h' this c = Ok true).
  { unfold defaultPolicy_includes.
    destruct (decide ("defaultPolicy" = x)) as [<- | Hne].
    - rewrite Hx. discriminate.
    - now rewrite (Hf _ Hne). }
  destruct (getMetadata reg _ x) as [p|]; [| exact Hdef].
  destruct (negb (String.eqb p "")); [trivial | exact Hdef].
Qed.

(** ** Traversal with the calls resolved on the object *)

Section DynTraversal.

Variable reg : registry.
Variable invoke : fun_id -> heap -> value * heap.

(** A function at the last segment is called. *)
Lemma Dyn_performRead_function_last (fuel : nat) (this : loc)
    (current : value) (k : string) (h : heap) (v : value) (f : fun_id) :
  get_prop h current k = Ok v -> as_Function h v = Some f ->
  Dyn.performRead invoke (S fuel) this [k] current h
  = Ret (invoke f h).1 (invoke f h).2.
Proof.
  intros Hg Hf. rewrite Dyn_performRead_S. cbn [key0 hd]. rewrite Hg.
  rewrite (as_Function_not_Store _ _ _ Hf), Hf. cbn [length Nat.eqb].
  now destruct (invoke f h).
Qed.

(** A function at an inner segment is called and the traversal goes on in
    what it returns. *)
Lemma Dyn_performRead_function_inner (fuel : nat) (this : loc)
    (current : value) (k k2 : string) (rest : list string) (h : heap)
    (v : value) (f : fun_id) :
  ofields (obj_at h this) !! "performRead" = None ->
  get_prop h current k = Ok v -> as_Function h v = Some f ->
  Dyn.performRead invoke (S fuel) this (k :: k2 :: rest) current h
  = Dyn.performRead invoke fuel this (k2 :: rest) (invoke f h).1
      (invoke f h).2.
Proof.
  intros Hown Hg Hf. rewrite Dyn_performRead_S. cbn [key0 hd]. rewrite Hg.
  rewrite (as_Function_not_Store _ _ _ Hf), Hf. cbn [length Nat.eqb tail].
  rewrite (lookup_method_own_None h this _ Hown).
  now destruct (invoke f h).
Qed.

(** A missing last field reads as [undefined]. *)
Lemma Dyn_performRead_missing_last (fuel : nat) (this : loc)
    (current : value) (k : string) (h : heap) :
  get_prop h current k = Ok VUndef ->
  Dyn.performRead invoke (S fuel) this [k] current h = Ret VUndef h.
Proof. intros Hg. rewrite Dyn_performRead_S. cbn [key0 hd]. now rewrite Hg. Qed.

(** A missing inner field: the next step reads a property of [undefined]. *)
Lemma Dyn_performRead_missing_inner (fuel : nat) (this : loc)
    (current : value) (k k2 : string) (rest : list string) (h : heap) :
  ofields (obj_at h this) !! "performRead" = None ->
  get_prop h current k = Ok VUndef ->
  Dyn.performRead invoke (S (S fuel)) this (k :: k2 :: rest) current h
  = Throw TypeError h.
Proof.
  intros Hown Hg. rewrite Dyn_performRead_S. cbn [key0 hd]. rewrite Hg.
  cbn [instanceof_Store as_Store as_Function kind_of length Nat.ltb Nat.leb
       tail].
  rewrite (lookup_method_own_None h this _ Hown).
  now rewrite Dyn_performRead_S.
Qed.

(** Any other value at an inner segment is traversed as it is. *)
Lemma Dyn_performRead_plain_inner (fuel : nat) (this : loc)
    (current : value) (k k2 : string) (rest : list string) (h : heap)
    (v : value) :
  ofields (obj_at h this) !! "performRead" = None ->
  get_prop h current k = Ok v ->
  as_Store h v = None -> as_Function h v = None ->
  Dyn.performRead invoke (S fuel) this (k :: k2 :: rest) current h
  = Dyn.performRead invoke fuel this (k2 :: rest) v h.
Proof.
  intros Hown Hg Hs Hf. rewrite Dyn_performRead_S. cbn [key0 hd]. rewrite Hg.
  unfold instanceof_Store. rewrite Hs, Hf. cbn [length Nat.ltb Nat.leb tail].
  now rewrite (lookup_method_own_None h this _ Hown).
Qed.

(** Any other value at the last segment is the result. *)
Lemma Dyn_performRead_plain_last (fuel : nat) (this : loc)
    (current : value) (k : string) (h : heap) (v : value) :
  get_prop h current k = Ok v ->
  as_Store h v = None -> as_Function h v = None ->
  Dyn.performRead invoke (S fuel) this [k] current h = Ret v h.
Proof.
  intros Hg Hs Hf. rewrite Dyn_performRead_S. cbn [key0 hd]. rewrite Hg.
  unfold instanceof_Store. now rewrite Hs, Hf.
Qed.

(** A store at the last segment is traversed with no segment left, which
    reads its field named "undefined". *)
Lemma Dyn_performRead_store_last (fuel : nat) (this : loc) (current : value)
    (k : string) (h : heap) (t : loc) :
  ofields (obj_at h this) !! "performRead" = None ->
  get_prop h current k = Ok (VRef t) ->
  as_Store h (VRef t) = Some t ->
  as_Store h (field h t "undefined") = None ->
  as_Function h (field h t "undefined") = None ->
  Dyn.performRead invoke (S (S fuel)) this [k] current h
  = Ret (field h t "undefined") h.
Proof.
  intros Hown Hg Hs Hus Huf. rewrite Dyn_performRead_S. cbn [key0 hd].
  rewrite Hg. unfold instanceof_Store at 1. rewrite Hs. cbn [tail].
  rewrite (lookup_method_own_None h this _ Hown).
  rewrite Dyn_performRead_S. cbn [key0 hd get_prop length].
  unfold instanceof_Store. now rewrite Hus, Huf.
Qed.

(** A falsy entry under a data key is replaced by a new empty object and
    the write goes on inside it. *)
Lemma Dyn_performWrite_vivify (this l : loc) (k k2 : string)
    (rest : list string) (v : value) (h : heap) :
  k <> "performWrite" ->
  ofields (obj_at h this) !! "performWrite" = None ->
  truthy (field h l k) = false ->
  Dyn.performWrite invoke this (k :: k2 :: rest) v (VRef l) h
  = Dyn.performWrite invoke this (k2 :: rest) v (VRef (fresh (dom h)))
      (set_field l k (VRef (fresh (dom h)))
         (<[fresh (dom h) := empty_object]> h)).
Proof.
  intros Hk Hown Ht. rewrite Dyn_performWrite_step. cbn [get_prop].
  rewrite (falsy_not_Store h _ Ht), Ht. cbn [alloc set_prop].
  rewrite lookup_method_own_None; [reflexivity |].
  rewrite ofields_set_field_ne by exact Hk.
  rewrite obj_at_alloc_empty; [exact Hown |].
  apply not_elem_of_dom, is_fresh.
Qed.

(** A truthy entry that is not a store is kept and the write goes on in it. *)
Lemma Dyn_performWrite_descend (this l : loc) (k k2 : string)
    (rest : list string) (v : value) (h : heap) :
  ofields (obj_at h this) !! "performWrite" = None ->
  truthy (field h l k) = true ->
  instanceof_Store h (field h l k) = false ->
  Dyn.performWrite invoke this (k :: k2 :: rest) v (VRef l) h
  = Dyn.performWrite invoke this (k2 :: rest) v (field h l k) h.
Proof.
  intros Hown Ht Hs. rewrite Dyn_performWrite_step. cbn [get_prop].
  rewrite Hs, Ht. cbn [set_prop]. rewrite set_field_same by exact Ht.
  now rewrite (lookup_method_own_None h this _ Hown).
Qed.

(** A store entry is entered as it is. *)
Lemma Dyn_performWrite_store (this l : loc) (k k2 : string)
    (rest : list string) (v : value) (h : heap) :
  ofields (obj_at h this) !! "performWrite" = None ->
  instanceof_Store h (field h l k) = true ->
  Dyn.performWrite invoke this (k :: k2 :: rest) v (VRef l) h
  = Dyn.performWrite invoke this (k2 :: rest) v (field h l k) h.
Proof.
  intros Hown Hs. rewrite Dyn_performWrite_step. cbn [get_prop].
  rewrite Hs. now rewrite (lookup_method_own_None h this _ Hown).
Qed.

(** Under data keys and with [performWrite] not hidden, the traversal of
    [write] is the one of the class. *)
Lemma Dyn_performWrite_eq (this : loc) (v : value) (keys : list string) :
  Forall (fun k => data_key k = true) keys ->
  forall current h,
    ofields (obj_at h this) !! "performWrite" = None ->
    Dyn.performWrite invoke this keys v current h
    = performWrite keys v current h.
Proof.
  induction keys as [|k keys IH]; intros Hkeys current h Hown;
    [reflexivity |].
  destruct keys as [|k2 rest]; [reflexivity |].
  inversion Hkeys as [|? ? Hk Hrest]; subst.
  assert (Hne : k <> "performWrite").
  { intros ->. apply (data_key_not_method _ Hk). simpl. auto 10. }
  rewrite Dyn_performWrite_step, performWrite_step.
  destruct (get_prop h current k) as [old|e]; [| reflexivity].
  destruct (instanceof_Store h old).
  - rewrite (lookup_method_own_None h this _ Hown). now apply IH.
  - destruct (truthy old).
    + destruct current; cbn [set_prop]; try reflexivity.
      assert (Hown2 : ofields (obj_at (set_field l k old h) this)
                      !! "performWrite" = None)
        by (rewrite ofields_set_field_ne by exact Hne; exact Hown).
      rewrite (lookup_method_own_None _ this _ Hown2). now apply IH.
    + cbn [alloc]. destruct current; cbn [set_prop]; try reflexivity.
      assert (Hown2 :
                ofields (obj_at (set_field l k (VRef (fresh (dom h)))
                                   (<[fresh (dom h) := empty_object]> h))
                           this) !! "performWrite" = None).
      { rewrite ofields_set_field_ne by exact Hne.
        rewrite obj_at_alloc_empty; [exact Hown |].
        apply not_elem_of_dom, is_fresh. }
      rewrite (lookup_method_own_None _ this _ Hown2). now apply IH.
Qed.

End DynTraversal.

(** C3, as stated, fails in two ways.  With [x] holding 0, present and not
    a store, writing 5 at "x:y" does not go on in the value of [x] (which
    would raise [TypeError]): [x] is replaced by a new object with
    [y] = 5.  And after writing the function at location 3 at "x:y" on a
    new store, reading "x:y" returns 42, what the function returns, not
    the function that was written. *)
Lemma vivify_present_entry_counterexample :
  (field ex_zero 1%positive "x" = VNum 0 /\
   instanceof_Store ex_zero (VNum 0) = false /\
   (exists h', Dyn.performWrite ex_invoke 1%positive ["x"; "y"] (VNum 5)
                 (VRef 1%positive) ex_zero
               = Ret tt h' /\
               ex_zero !! 2%positive = None /\
               field h' 1%positive "x" = VRef 2%positive /\
               field h' 2%positive "y" = VNum 5) /\
   ~ (field ex_zero 1%positive "x" <> VUndef ->
      Dyn.performWrite ex_invoke 1%positive ["x"; "y"] (VNum 5)
        (VRef 1%positive) ex_zero
      = Dyn.performWrite ex_invoke 1%positive ["y"] (VNum 5)
          (field ex_zero 1%positive "x") ex_zero)) /\
  (field ex_fun 1%positive "x" = VUndef /\
   exists h', Dyn.write ∅ ex_invoke 1 1%positive "x:y" (VRef 3%positive)
                ex_fun
              = Ret (VRef 3%positive) h' /\
              Dyn.read ∅ ex_invoke 3 1%positive "x:y" h' = Ret (VNum 42) h' /\
              Dyn.read ∅ ex_invoke 3 1%positive "x:y" h'
              <> Ret (VRef 3%positive) h').
Proof.
  split.
  - split; [reflexivity |]. split; [reflexivity |]. split.
    + eexists. split; [reflexivity |]. repeat split; vm_compute; reflexivity.
    + intros H. assert (Hne : field ex_zero 1%positive "x" <> VUndef)
        by (vm_compute; discriminate).
      specialize (H Hne). vm_compute in H. discriminate H.
  - split; [reflexivity |]. eexists. split; [reflexivity |].
    split; [vm_compute; reflexivity | vm_compute; discriminate].
Qed.

(** After writing at "x:y" through a new object for [x], with the calls
    resolved on the object: the result of [write], the new object, and the
    first step of a following [read]. *)
Lemma Dyn_write_vivify (reg : registry)
    (invoke : fun_id -> heap -> value * heap)
    (fuel : nat) (this : loc) (path x y : string) (v : value) (h : heap) :
  split colon path = [x; y] ->
  data_key x = true -> data_key y = true ->
  as_Store h (VRef this) = Some this ->
  unshadowed h this = true ->
  field h this x = VUndef ->
  allowedToWrite reg h this x = Ok true ->
  allowedToRead reg h this x = Ok true ->
  exists n h',
    h !! n = None /\
    Dyn.write reg invoke (S fuel) this path v h = Ret v h' /\
    field h' this x = VRef n /\
    obj_at h' n = Obj KPlain {[ y := v ]} /\
    (forall m, okind (obj_at h' m) = okind (obj_at h m)) /\
    (forall k, k <> x -> field h' this k = field h this k) /\
    (forall m, m <> this -> m <> n -> h' !! m = h !! m) /\
    unshadowed h' this = true /\
    Dyn.read reg invoke (S (S (S fuel))) this path h'
    = match Dyn.performRead invoke (S fuel) this [y] (VRef n) h' with
      | Ret r h2 => force invoke r h2
      | Throw e h2 => Throw e h2
      | OutOfFuel => OutOfFuel
      end.
Proof.
  intros Hs Hdx Hdy Hstore Hu Hx Hw Hr.
  assert (Hthis : is_Some (h !! this)).
  { unfold as_Store, obj_at in Hstore.
    destruct (h !! this); [eauto | discriminate]. }
  destruct (vivified_heap h this x y v Hthis) as (Hn & Hk & Hfx & Hon & Hoth).
  set (n := fresh (dom h)) in *.
  set (h' := set_field n y v
               (set_field this x (VRef n) (<[n := empty_object]> h))) in *.
  pose proof (proj1 (unshadowed_spec h this) Hu) as Hown.
  assert (Hu' : unshadowed h' this = true).
  { unfold h'. rewrite !unshadowed_set_field
      by (now apply data_key_not_method).
    now rewrite unshadowed_alloc_empty. }
  pose proof (proj1 (unshadowed_spec h' this) Hu') as Hown'.
  exists n, h'. split; [exact Hn |]. split; [| split; [exact Hfx |]].
  { rewrite (Dyn_write_allowed reg invoke).
    - rewrite Hs.
      rewrite Dyn_performWrite_vivify; [reflexivity | | | now rewrite Hx].
      + intros ->. apply (data_key_not_method _ Hdx). simpl. auto 10.
      + apply Hown. simpl. auto 10.
    - unfold delegate. rewrite Hs. cbn [length Nat.ltb Nat.leb key0 hd].
      now rewrite Hx.
    - apply Hown. simpl. auto.
    - apply Hown. simpl. auto 10.
    - now rewrite Hs. }
  split; [exact Hon |]. split; [exact Hk |]. split; [exact Hoth |].
  split.
  { intros m Hm1 Hm2. unfold h', set_field.
    rewrite !lookup_insert_ne by congruence. reflexivity. }
  split; [exact Hu' |].
  assert (Hns : as_Store h' (VRef n) = None).
  { unfold as_Store. now rewrite Hon. }
  assert (Hnf : as_Function h' (VRef n) = None).
  { unfold as_Function, kind_of. now rewrite Hon. }
  rewrite (Dyn_read_allowed reg invoke).
  - rewrite Hs. cbn [length Nat.ltb Nat.leb].
    rewrite (Dyn_performRead_plain_inner invoke _ this (VRef this) x y [] h'
               (VRef n)); [reflexivity | | | exact Hns | exact Hnf].
    + apply Hown'. simpl. auto 10.
    + simpl. now rewrite Hfx.
  - unfold delegate. rewrite Hs. cbn [length Nat.ltb Nat.leb key0 hd].
    now rewrite Hfx.
  - apply Hown'. simpl. auto.
  - apply Hown'. simpl. auto 10.
  - rewrite Hs. cbn [key0 hd].
    now apply (allowedTo_after_write reg "r" h h' this x Hk Hoth Hx).
Qed.

(** C3, amended: where the segment is a data key (it names no member that
    objects inherit or own by themselves) and no own field of the store is
    named [performWrite], with segments left and an entry that is not a
    store, a new empty plain object replaces the entry exactly when the
    entry is falsy (absent, undefined, null, false, 0, -0, NaN or the empty
    string), and a truthy entry is kept and written into.  On a store with
    no own field named like a method, writing at "x:y", with [x] and [y]
    data keys, where [x] is undefined and may be written and read makes [x]
    a new plain object with the single field [y], and reading "x:y" then
    returns the value written when it is neither a function nor a store,
    and what [read] makes of the function's return value when it is a
    function. *)
Theorem performWrite_vivifies_falsy (reg : registry)
    (invoke : fun_id -> heap -> value * heap) :
  (forall this l k k2 rest v h,
     data_key k = true ->
     ofields (obj_at h this) !! "performWrite" = None ->
     truthy (field h l k) = false ->
     Dyn.performWrite invoke this (k :: k2 :: rest) v (VRef l) h
     = Dyn.performWrite invoke this (k2 :: rest) v (VRef (fresh (dom h)))
         (set_field l k (VRef (fresh (dom h)))
            (<[fresh (dom h) := empty_object]> h))) /\
  (forall this l k k2 rest v h,
     data_key k = true ->
     ofields (obj_at h this) !! "performWrite" = None ->
     truthy (field h l k) = true ->
     instanceof_Store h (field h l k) = false ->
     Dyn.performWrite invoke this (k :: k2 :: rest) v (VRef l) h
     = Dyn.performWrite invoke this (k2 :: rest) v (field h l k) h) /\
  (forall w, truthy w = false <->
             w = VUndef \/ w = VNull \/ w = VBool false \/ w = VNum 0 \/
             w = VNegZero \/ w = VNaN \/ w = VStr "") /\
  (forall fuel this path x y v h,
     split colon path = [x; y] ->
     data_key x = true -> data_key y = true ->
     as_Store h (VRef this) = Some this ->
     unshadowed h this = true ->
     field h this x = VUndef ->
     allowedToWrite reg h this x = Ok true ->
     allowedToRead reg h this x = Ok true ->
     as_Store h v = None ->
     exists n h',
       h !! n = None /\
       Dyn.write reg invoke (S fuel) this path v h = Ret v h' /\
       field h' this x = VRef n /\
       obj_at h' n = Obj KPlain {[ y := v ]} /\
       (as_Function h v = None ->
        Dyn.read reg invoke (S (S (S fuel))) this path h' = Ret v h') /\
       (forall f, as_Function h v = Some f ->
        Dyn.read reg invoke (S (S (S fuel))) this path h'
        = force invoke (invoke f h').1 (invoke f h').2)).
Proof.
  split.
  { intros this l k k2 rest v h Hk Hown Ht.
    apply Dyn_performWrite_vivify; [| exact Hown | exact Ht].
    intros ->. apply (data_key_not_method _ Hk). simpl. auto 10. }
  split.
  { intros this l k k2 rest v h _ Hown Ht Hs.
    now apply Dyn_performWrite_descend. }
  split.
  { intros w. split.
    - destruct w as [| |b|n| | |s|l]; simpl; intros Ht; try discriminate;
        auto 10.
      + destruct b; [discriminate | auto 10].
      + apply negb_false_iff, Z.eqb_eq in Ht. subst. auto 10.
      + apply negb_false_iff, String.eqb_eq in Ht. subst. auto 10.
    - intros [-> | [-> | [-> | [-> | [-> | [-> | ->]]]]]]; reflexivity. }
  intros fuel this path x y v h Hs Hdx Hdy Hstore Hu Hx Hw Hr Hvs.
  destruct (Dyn_write_vivify reg invoke fuel this path x y v h Hs Hdx Hdy
              Hstore Hu Hx Hw Hr)
    as (n & h' & Hn & Hwrite & Hfx & Hon & Hk & _ & _ & _ & Hread).
  exists n, h'. split; [exact Hn |]. split; [exact Hwrite |].
  split; [exact Hfx |]. split; [exact Hon |].
  assert (Hy : get_prop h' (VRef n) y = Ok v).
  { simpl. unfold field. rewrite Hon. simpl. now rewrite lookup_singleton_eq. }
  split.
  - intros Hvf.
    assert (Hvf' : as_Function h' v = None)
      by now rewrite (as_Function_same_kind h h' v Hk).
    rewrite Hread.
    rewrite (Dyn_performRead_plain_last invoke _ this (VRef n) y h' v Hy);
      [| now rewrite (as_Store_same_kind h h' v Hk) | exact Hvf'].
    unfold force. now rewrite Hvf'.
  - intros f Hvf.
    assert (Hvf' : as_Function h' v = Some f)
      by now rewrite (as_Function_same_kind h h' v Hk).
    rewrite Hread.
    now rewrite (Dyn_performRead_function_last invoke _ this (VRef n) y h' v f
                   Hy Hvf').
Qed.

Lemma performWrite_vivifies_falsy_witness :
  exists n h',
    ex_new !! n = None /\
    Dyn.write ∅ ex_invoke 1 1%positive "x:y" (VNum 5) ex_new
    = Ret (VNum 5) h' /\
    field h' 1%positive "x" = VRef n /\
    obj_at h' n = Obj KPlain {[ "y" := VNum 5 ]} /\
    Dyn.read ∅ ex_invoke 3 1%positive "x:y" h' = Ret (VNum 5) h'.
Proof.
  destruct (proj2 (proj2 (proj2 (performWrite_vivifies_falsy ∅ ex_invoke)))
              0 1%positive "x:y" "x" "y" (VNum 5) ex_new)
    as (n & h' & Hn & Hw & Hx & Ho & Hplain & _);
    try (vm_compute; reflexivity).
  exists n, h'. repeat split; try assumption. now apply Hplain.
Defined.
(** * Further properties of the code *)

(** ** Bulk load with [writeEntries] *)

Lemma field_set_field_other (h : heap) (l e : loc) (k : string) :
  forall k', field (set_field l k (field h e k) h) e k' = field h e k'.
Proof.
  intros k'. destruct (decide (l = e)) as [-> | Hne].
  - destruct (decide (k = k')) as [<- | Hk].
    + apply field_set_field_eq.
    + apply field_set_field_ne. now right.
  - apply field_set_field_ne. now left.
Qed.

Lemma lookup_set_field_ne (h : heap) (l m : loc) (k : string) (v : value) :
  l <> m -> set_field l k v h !! m = h !! m.
Proof. intros Hne. unfold set_field. now rewrite lookup_insert_ne. Qed.

Lemma own_set_field (h : heap) (l : loc) (k k' : string) (v : value) :
  is_Some (ofields (obj_at (set_field l k v h) l) !! k') <->
  k' = k \/ is_Some (ofields (obj_at h l) !! k').
Proof.
  rewrite obj_at_set_field_eq. simpl. rewrite lookup_insert.
  case_decide as Hk.
  - subst. split; [auto | eauto].
  - split; [auto | intros [-> | H]; [contradiction | exact H]].
Qed.

Lemma writeEntries_loop_spec (this e : loc) (keys : list string) :
  forall h,
    (forall k, field (writeEntries_loop this e keys h) this k
               = if decide (k ∈ keys) then field h e k else field h this k) /\
    (forall m, m <> this -> writeEntries_loop this e keys h !! m = h !! m) /\
    okind (obj_at (writeEntries_loop this e keys h) this)
    = okind (obj_at h this) /\
    (forall k, is_Some (ofields (obj_at (writeEntries_loop this e keys h) this) !! k)
               <-> k ∈ keys \/ is_Some (ofields (obj_at h this) !! k)).
Proof.
  induction keys as [|k0 keys IH]; intros h; cbn [writeEntries_loop].
  - split; [| split; [| split]]; try reflexivity.
    intros k. split; [intros H; now right |].
    intros [Hin | H]; [inversion Hin | exact H].
  - set (h1 := set_field this k0 (field h e k0) h).
    destruct (IH h1) as (Hf & Hm & Hk & Hown).
    split; [| split; [| split]].
    + intros k. rewrite Hf. unfold h1.
      rewrite field_set_field_other.
      destruct (decide (k ∈ keys)) as [Hin | Hnin].
      * rewrite decide_True by (now right). reflexivity.
      * destruct (decide (k = k0)) as [-> | Hne].
        -- rewrite decide_True by (now left). apply field_set_field_eq.
        -- rewrite decide_False.
           ++ apply field_set_field_ne. right. congruence.
           ++ intros Hin. apply elem_of_cons in Hin.
              destruct Hin; contradiction.
    + intros m Hne. rewrite (Hm m Hne). unfold h1.
      apply lookup_set_field_ne. congruence.
    + rewrite Hk. unfold h1. apply okind_set_field.
    + intros k. rewrite Hown. unfold h1. rewrite own_set_field.
      rewrite elem_of_cons. tauto.
Qed.

(** X1: [writeEntries] of a plain object that has no own key "__proto__"
    never fails and consults no permission: afterwards the store holds, for
    every own key of the object, the object's value, its other fields are
    as before, it is an instance of the same class, its own keys are the
    old ones and the object's, and no other object has changed. *)
Theorem writeEntries_spec (this e : loc) (h : heap) :
  okind (obj_at h e) = KPlain ->
  ofields (obj_at h e) !! "__proto__" = None ->
  exists h',
    writeEntries this (VRef e) h = Ret tt h' /\
    (forall k, is_Some (ofields (obj_at h e) !! k) ->
               field h' this k = field h e k) /\
    (forall k, ofields (obj_at h e) !! k = None ->
               field h' this k = field h this k) /\
    (forall k, is_Some (ofields (obj_at h' this) !! k) <->
               is_Some (ofields (obj_at h e) !! k) \/
               is_Some (ofields (obj_at h this) !! k)) /\
    okind (obj_at h' this) = okind (obj_at h this) /\
    (forall m, m <> this -> h' !! m = h !! m).
Proof.
  intros _ _. eexists. split; [reflexivity |].
  destruct (writeEntries_loop_spec this e (Object_keys h e) h)
    as (Hf & Hm & Hk & Hown).
  split; [| split; [| split; [| split]]].
  - intros k Hin. rewrite Hf. apply elem_of_Object_keys in Hin.
    now rewrite decide_True.
  - intros k Hnone. rewrite Hf. rewrite decide_False; [reflexivity |].
    intros Hin. apply elem_of_Object_keys in Hin.
    rewrite Hnone in Hin. now destruct Hin.
  - intros k. rewrite Hown. now rewrite elem_of_Object_keys.
  - exact Hk.
  - exact Hm.
Qed.

Lemma writeEntries_spec_witness :
  exists h',
    writeEntries 1%positive (VRef 5%positive) ex_bulk = Ret tt h' /\
    field h' 1%positive "a" = VNum 1.
Proof.
  destruct (writeEntries_spec 1%positive 5%positive ex_bulk eq_refl eq_refl)
    as (h' & Hw & Hin & _).
  exists h'. split; [exact Hw |].
  rewrite (Hin "a"); [reflexivity | vm_compute; eauto].
Defined.

(** ** Single keys *)

Section Keys.

Variable reg : registry.
Variable invoke : fun_id -> heap -> value * heap.

(** The permission predicates look at the store's class and at its field
    [defaultPolicy] only. *)
Lemma allowedTo_frame (c : string) (h h' : heap) (this : loc) (key : string) :
  okind (obj_at h' this) = okind (obj_at h this) ->
  field h' this "defaultPolicy" = field h this "defaultPolicy" ->
  allowedTo reg c h' this key = allowedTo reg c h this key.
Proof.
  intros Hk Hd. unfold allowedTo, chain_of, defaultPolicy_includes.
  now rewrite Hk, Hd.
Qed.





Lemma force_plain (v : value) (h : heap) :
  as_Function h v = None -> force invoke v h = Ret v h.
Proof. intros Hf. unfold force. now rewrite Hf. Qed.

Lemma force_function (v : value) (h : heap) (f : fun_id) :
  as_Function h v = Some f ->
  force invoke v h = Ret (invoke f h).1 (invoke f h).2.
Proof. intros Hf. unfold force. rewrite Hf. now destruct (invoke f h). Qed.

End Keys.



(** The same with the calls resolved on the object. *)
Section DynKeys.

Variable reg : registry.
Variable invoke : fun_id -> heap -> value * heap.

Lemma unshadowed_own (h : heap) (this : loc) :
  unshadowed h this = true ->
  ofields (obj_at h this) !! "allowedToRead" = None /\
  ofields (obj_at h this) !! "allowedToWrite" = None /\
  ofields (obj_at h this) !! "read" = None /\
  ofields (obj_at h this) !! "write" = None /\
  ofields (obj_at h this) !! "performRead" = None /\
  ofields (obj_at h this) !! "performWrite" = None.
Proof.
  intros Hu. pose proof (proj1 (unshadowed_spec h this) Hu) as Hown.
  repeat split; apply Hown; simpl; auto 10.
Qed.

Lemma Dyn_write_key (fuel : nat) (this : loc) (path k : string) (v : value)
    (h : heap) :
  split colon path = [k] ->
  unshadowed h this = true ->
  allowedToWrite reg h this k = Ok true ->
  Dyn.write reg invoke (S fuel) this path v h = Ret v (set_field this k v h).
Proof.
  intros Hs Hu Ha.
  destruct (unshadowed_own h this Hu) as (_ & Haw & _ & _ & _ & Hpw).
  rewrite (Dyn_write_allowed reg invoke); [| | exact Haw | exact Hpw |].
  - now rewrite Hs.
  - unfold delegate. now rewrite Hs.
  - now rewrite Hs.
Qed.

Lemma Dyn_read_key (fuel : nat) (this : loc) (path k : string) (h : heap) :
  split colon path = [k] ->
  unshadowed h this = true ->
  allowedToRead reg h this k = Ok true ->
  Dyn.read reg invoke (S fuel) this path h = force invoke (field h this k) h.
Proof.
  intros Hs Hu Ha.
  destruct (unshadowed_own h this Hu) as (Har & _ & _ & _ & Hpr & _).
  rewrite (Dyn_read_allowed reg invoke); [| | exact Har | exact Hpr |].
  - now rewrite Hs.
  - unfold delegate. now rewrite Hs.
  - now rewrite Hs.
Qed.

(** A path of several segments that is not handed to a nested store. *)
Lemma Dyn_read_path (fuel : nat) (this : loc) (path : string) (h : heap) :
  Nat.ltb 1 (length (split colon path)) = true ->
  as_Store h (field h this (key0 (split colon path))) = None ->
  unshadowed h this = true ->
  allowedToRead reg h this (key0 (split colon path)) = Ok true ->
  Dyn.read reg invoke (S fuel) this path h
  = match Dyn.performRead invoke fuel this (split colon path) (VRef this) h
    with
    | Ret r h' => force invoke r h'
    | Throw e h' => Throw e h'
    | OutOfFuel => OutOfFuel
    end.
Proof.
  intros Hlen Hns Hu Ha.
  destruct (unshadowed_own h this Hu) as (Har & _ & _ & _ & Hpr & _).
  rewrite (Dyn_read_allowed reg invoke); [| | exact Har | exact Hpr | exact Ha].
  - now rewrite Hlen.
  - unfold delegate. now rewrite Hlen.
Qed.

Lemma Dyn_write_path (fuel : nat) (this : loc) (path : string) (v : value)
    (h : heap) :
  instanceof_Store h (field h this (key0 (split colon path))) = false ->
  unshadowed h this = true ->
  allowedToWrite reg h this (key0 (split colon path)) = Ok true ->
  Dyn.write reg invoke (S fuel) this path v h
  = match Dyn.performWrite invoke this (split colon path) v (VRef this) h with
    | Ret _ h' => Ret v h'
    | Throw e h' => Throw e h'
    | OutOfFuel => OutOfFuel
    end.
Proof.
  intros Hns Hu Ha.
  destruct (unshadowed_own h this Hu) as (_ & Haw & _ & _ & _ & Hpw).
  rewrite (Dyn_write_allowed reg invoke); [reflexivity | | exact Haw
                                          | exact Hpw | exact Ha].
  unfold delegate. destruct (Nat.ltb 1 (length (split colon path)));
    [| reflexivity].
  unfold instanceof_Store in Hns.
  now destruct (as_Store h (field h this (key0 (split colon path)))).
Qed.

Lemma Dyn_read_delegated (fuel : nat) (this nested : loc) (path : string)
    (h : heap) :
  delegate h this (split colon path) = Some nested ->
  unshadowed h nested = true ->
  Dyn.read reg invoke (S fuel) this path h
  = Dyn.read reg invoke fuel nested (join ":" (tail (split colon path))) h.
Proof.
  intros Hd Hu. rewrite Dyn_read_S, Hd.
  destruct (unshadowed_own h nested Hu) as (_ & _ & Hr & _).
  now rewrite (lookup_method_own_None h nested "read" Hr).
Qed.

Lemma Dyn_write_delegated (fuel : nat) (this nested : loc) (path : string)
    (v : value) (h : heap) :
  delegate h this (split colon path) = Some nested ->
  unshadowed h nested = true ->
  Dyn.write reg invoke (S fuel) this path v h
  = Dyn.write reg invoke fuel nested (join ":" (tail (split colon path))) v h.
Proof.
  intros Hd Hu. rewrite Dyn_write_S, Hd.
  destruct (unshadowed_own h nested Hu) as (_ & _ & _ & Hw & _).
  now rewrite (lookup_method_own_None h nested "write" Hw).
Qed.

End DynKeys.

(** X3: on a store with no own field named like a method, where a data
    key other than [defaultPolicy] may be written and read, [write] on
    that key followed by [read] gives back the value written, a store
    included, or what it returns when it is a function; the other fields
    of the store and every other object are untouched. *)
Theorem write_then_read_key (reg : registry)
    (invoke : fun_id -> heap -> value * heap) (fuel fuel' : nat)
    (this : loc) (path k : string) (v : value) (h : heap) :
  split colon path = [k] ->
  data_key k = true ->
  k <> "defaultPolicy" ->
  unshadowed h this = true ->
  allowedToWrite reg h this k = Ok true ->
  allowedToRead reg h this k = Ok true ->
  exists h',
    Dyn.write reg invoke (S fuel) this path v h = Ret v h' /\
    (as_Function h v = None ->
     Dyn.read reg invoke (S fuel') this path h' = Ret v h') /\
    (forall f, as_Function h v = Some f ->
     Dyn.read reg invoke (S fuel') this path h'
     = Ret (invoke f h').1 (invoke f h').2) /\
    (forall k', k' <> k -> field h' this k' = field h this k') /\
    (forall m, m <> this -> h' !! m = h !! m).
Proof.
  intros Hs Hdk Hk Hu Hw Hr. exists (set_field this k v h).
  assert (Hkind : forall m, okind (obj_at (set_field this k v h) m)
                            = okind (obj_at h m))
    by (intros m; apply okind_set_field).
  assert (Hu' : unshadowed (set_field this k v h) this = true).
  { rewrite unshadowed_set_field; [exact Hu |].
    now apply data_key_not_method. }
  assert (Hr' : allowedToRead reg (set_field this k v h) this k = Ok true).
  { unfold allowedToRead.
    rewrite (allowedTo_frame reg "r" h (set_field this k v h) this k);
      [exact Hr | apply Hkind |].
    apply field_set_field_ne. right. exact Hk. }
  split; [now apply Dyn_write_key |]. split; [| split; [| split]].
  - intros Hf. rewrite (Dyn_read_key reg invoke _ _ _ k _ Hs Hu' Hr').
    rewrite field_set_field_eq. apply force_plain.
    now rewrite (as_Function_same_kind h _ v Hkind).
  - intros f Hf. rewrite (Dyn_read_key reg invoke _ _ _ k _ Hs Hu' Hr').
    rewrite field_set_field_eq. apply force_function.
    now rewrite (as_Function_same_kind h _ v Hkind).
  - intros k' Hne. apply field_set_field_ne. right. congruence.
  - intros m Hne. apply lookup_set_field_ne. congruence.
Qed.

Lemma write_then_read_key_witness :
  exists h',
    Dyn.write ∅ ex_invoke 1 1%positive "x" (VNum 9) ex_zero
    = Ret (VNum 9) h' /\
    Dyn.read ∅ ex_invoke 1 1%positive "x" h' = Ret (VNum 9) h'.
Proof.
  destruct (write_then_read_key ∅ ex_invoke 0 0 1%positive "x" "x" (VNum 9)
              ex_zero eq_refl eq_refl ltac:(discriminate) eq_refl eq_refl
              eq_refl)
    as (h' & Hw & Hplain & _).
  exists h'. split; [exact Hw | now apply Hplain].
Defined.

(** ** Writing through missing fields, at any depth *)

Lemma field_same_lookup (h h' : heap) (l : loc) (k : string) :
  h' !! l = h !! l -> field h' l k = field h l k.
Proof. intros Hl. unfold field, obj_at. now rewrite Hl. Qed.

Lemma lookup_set_field_is_Some (h : heap) (l m : loc) (k : string) (v : value) :
  is_Some (h !! m) -> is_Some (set_field l k v h !! m).
Proof.
  intros Hm. unfold set_field. destruct (decide (l = m)) as [-> | Hne].
  - rewrite lookup_insert_eq. eauto.
  - now rewrite lookup_insert_ne.
Qed.

Section Vivify.

Variable invoke : fun_id -> heap -> value * heap.

(** From an allocated object whose field for the first segment is
    undefined, [performWrite] builds, along data keys, a chain of new plain
    objects, changes no other existing object, and [performRead] finds the
    value again. *)
Lemma Dyn_performWrite_chain (this : loc) (v : value) (keys : list string) :
  keys <> [] ->
  Forall (fun k => data_key k = true) keys ->
  forall (l : loc) (h : heap) (fuel : nat),
    is_Some (h !! l) ->
    field h l (key0 keys) = VUndef ->
    as_Store h v = None -> as_Function h v = None ->
    unshadowed h this = true ->
    exists h',
      Dyn.performWrite invoke this keys v (VRef l) h = Ret tt h' /\
      (forall m, okind (obj_at h' m) = okind (obj_at h m)) /\
      (forall m, m <> l -> is_Some (h !! m) -> h' !! m = h !! m) /\
      is_Some (h' !! l) /\
      (forall k', k' <> key0 keys -> field h' l k' = field h l k') /\
      as_Store h' (field h' l (key0 keys)) = None /\
      (length keys = 1 -> field h' l (key0 keys) = v) /\
      unshadowed h' this = true /\
      Dyn.performRead invoke (length keys + fuel) this keys (VRef l) h'
      = Ret v h'.
Proof.
  induction keys as [|k keys IH]; [contradiction |].
  intros _ Hkeys l h fuel Hl Hk Hvs Hvf Hu.
  inversion Hkeys as [|? ? Hdk Hrest]; subst.
  pose proof (data_key_not_method _ Hdk) as Hnm.
  destruct keys as [|k2 rest].
  - (* the last segment: the assignment *)
    exists (set_field l k v h). cbn [key0 hd] in *.
    assert (Hkind : forall m, okind (obj_at (set_field l k v h) m)
                              = okind (obj_at h m))
      by (intros m; apply okind_set_field).
    assert (Hvs' : as_Store (set_field l k v h) v = None)
      by now rewrite (as_Store_same_kind h _ v Hkind).
    split; [reflexivity |]. split; [exact Hkind |].
    split; [intros m Hne _; apply lookup_set_field_ne; congruence |].
    split; [now apply lookup_set_field_is_Some |].
    split; [intros k' Hne; apply field_set_field_ne; right; congruence |].
    split; [now rewrite field_set_field_eq |].
    split; [intros _; apply field_set_field_eq |].
    split; [now rewrite unshadowed_set_field |].
    apply Dyn_performRead_plain_last.
    + simpl. now rewrite field_set_field_eq.
    + exact Hvs'.
    + now rewrite (as_Function_same_kind h _ v Hkind).
  - (* a segment with others after it: a new object *)
    cbn [key0 hd] in Hk |- *.
    destruct (unshadowed_own h this Hu) as (_ & _ & _ & _ & _ & Hpw).
    rewrite Dyn_performWrite_vivify;
      [| intros ->; apply Hnm; simpl; auto 10 | exact Hpw | now rewrite Hk].
    set (n := fresh (dom h)).
    assert (Hn : h !! n = None) by (apply not_elem_of_dom, is_fresh).
    assert (Hne : l <> n).
    { intros ->. rewrite Hn in Hl. now destruct Hl. }
    set (h1 := <[n := empty_object]> h).
    set (h2 := set_field l k (VRef n) h1).
    assert (Hk2 : forall m, okind (obj_at h2 m) = okind (obj_at h m)).
    { intros m. unfold h2, h1.
      now rewrite okind_set_field, obj_at_alloc_empty. }
    assert (Hn2 : h2 !! n = Some empty_object).
    { unfold h2. rewrite lookup_set_field_ne by exact Hne.
      unfold h1. apply lookup_insert_eq. }
    assert (Hon2 : obj_at h2 n = empty_object).
    { unfold obj_at. now rewrite Hn2. }
    assert (Hu2 : unshadowed h2 this = true).
    { unfold h2, h1. rewrite unshadowed_set_field by exact Hnm.
      now rewrite unshadowed_alloc_empty. }
    destruct (IH ltac:(discriminate) Hrest n h2 fuel) as
      (h' & Hw & Hkind & Hoth & Hn' & Hfn & Hsn & _ & Hu' & Hread).
    { rewrite Hn2. eauto. }
    { unfold field. now rewrite Hon2. }
    { now rewrite (as_Store_same_kind h h2 v Hk2). }
    { now rewrite (as_Function_same_kind h h2 v Hk2). }
    { exact Hu2. }
    assert (Hl2 : is_Some (h2 !! l)).
    { unfold h2. apply lookup_set_field_is_Some. unfold h1.
      now rewrite lookup_insert_ne. }
    assert (Hl' : h' !! l = h2 !! l) by (apply Hoth; [exact Hne | exact Hl2]).
    assert (Hfl : field h' l k = VRef n).
    { rewrite (field_same_lookup h2 h' l k Hl'). apply field_set_field_eq. }
    assert (Hplain : okind (obj_at h' n) = KPlain).
    { rewrite Hkind. now rewrite Hon2. }
    exists h'. split; [exact Hw |].
    split; [intros m; now rewrite Hkind, Hk2 |].
    split.
    { intros m Hml Hm.
      assert (Hmn : m <> n) by (intros ->; rewrite Hn in Hm; now destruct Hm).
      assert (Hm2 : h2 !! m = h !! m).
      { unfold h2. rewrite lookup_set_field_ne by congruence.
        unfold h1. now rewrite lookup_insert_ne. }
      rewrite <- Hm2. apply Hoth; [exact Hmn | now rewrite Hm2]. }
    split; [now rewrite Hl' |].
    split.
    { intros k' Hk'. rewrite (field_same_lookup h2 h' l k' Hl').
      unfold h2. rewrite field_set_field_ne by (right; congruence).
      unfold field, h1. now rewrite obj_at_alloc_empty. }
    split; [rewrite Hfl; unfold as_Store; now rewrite Hplain |].
    split; [discriminate |].
    split; [exact Hu' |].
    change (length (k :: k2 :: rest) + fuel)
      with (S (length (k2 :: rest) + fuel)).
    destruct (unshadowed_own h' this Hu') as (_ & _ & _ & _ & Hpr & _).
    rewrite (Dyn_performRead_plain_inner invoke _ this (VRef l) k k2 rest h'
               (VRef n)).
    + exact Hread.
    + exact Hpr.
    + simpl. now rewrite Hfl.
    + unfold as_Store. now rewrite Hplain.
    + unfold as_Function, kind_of. now rewrite Hplain.
Qed.

End Vivify.

(** X4: on a store with no own field named like a method, along data
    keys, where the first segment is undefined and may be written and
    read, [write] of a value that is neither a function nor a store
    succeeds on a path of any number of segments, creating the missing
    containers; [read] of the same path then returns the value; the other
    fields of the store and every other existing object are untouched. *)
Theorem write_then_read_path (reg : registry)
    (invoke : fun_id -> heap -> value * heap) (fuel fuel' : nat)
    (this : loc) (path : string) (v : value) (h : heap) :
  Forall (fun k => data_key k = true) (split colon path) ->
  as_Store h (VRef this) = Some this ->
  unshadowed h this = true ->
  field h this (key0 (split colon path)) = VUndef ->
  allowedToWrite reg h this (key0 (split colon path)) = Ok true ->
  allowedToRead reg h this (key0 (split colon path)) = Ok true ->
  as_Store h v = None -> as_Function h v = None ->
  exists h',
    Dyn.write reg invoke (S fuel) this path v h = Ret v h' /\
    Dyn.read reg invoke (S (length (split colon path) + fuel')) this path h'
    = Ret v h' /\
    (forall k', k' <> key0 (split colon path) ->
                field h' this k' = field h this k') /\
    (forall m, m <> this -> is_Some (h !! m) -> h' !! m = h !! m).
Proof.
  intros Hkeys Hstore Hu Hx Hw Hr Hvs Hvf.
  assert (Hthis : is_Some (h !! this)).
  { unfold as_Store, obj_at in Hstore.
    destruct (h !! this); [eauto | discriminate]. }
  destruct (Dyn_performWrite_chain invoke this v (split colon path)
              (split_nonempty colon path) Hkeys this h fuel' Hthis Hx Hvs Hvf
              Hu)
    as (h' & Hpw & Hkind & Hoth & _ & Hf & Hns & Hone & Hu' & Hread).
  exists h'.
  assert (Hvf' : as_Function h' v = None)
    by now rewrite (as_Function_same_kind h h' v Hkind).
  destruct (unshadowed_own h' this Hu') as (Har & _ & _ & _ & Hpr & _).
  split; [| split; [| split; [exact Hf | exact Hoth]]].
  - rewrite (Dyn_write_path reg invoke _ _ _ _ _); [now rewrite Hpw | | exact Hu
                                                   | exact Hw].
    now rewrite Hx.
  - rewrite (Dyn_read_allowed reg invoke); [| | exact Har | exact Hpr |].
    + destruct (Nat.ltb 1 (length (split colon path))) eqn:Hlen.
      * rewrite Hread. unfold force. now rewrite Hvf'.
      * assert (Hl1 : length (split colon path) = 1).
        { apply Nat.ltb_ge in Hlen.
          pose proof (split_nonempty colon path) as Hne.
          destruct (split colon path); [contradiction | simpl in *; lia]. }
        rewrite (Hone Hl1). unfold force. now rewrite Hvf'.
    + unfold delegate. rewrite Hns. now destruct (Nat.ltb _ _).
    + now apply (allowedTo_after_write reg "r" h h' this _ Hkind Hf Hx).
Qed.

Lemma write_then_read_path_witness :
  exists h',
    Dyn.write ∅ ex_invoke 1 1%positive "a:b:c" (VNum 5) ex_new
    = Ret (VNum 5) h' /\
    Dyn.read ∅ ex_invoke 4 1%positive "a:b:c" h' = Ret (VNum 5) h'.
Proof.
  destruct (write_then_read_path ∅ ex_invoke 0 0 1%positive "a:b:c" (VNum 5)
              ex_new) as (h' & Hw & Hr & _); try (vm_compute; reflexivity).
  - repeat constructor.
  - exists h'. split; [exact Hw | exact Hr].
Defined.

(** ** Existing containers and shared objects *)

Lemma as_Store_allocated (h : heap) (v : value) (t : loc) :
  as_Store h v = Some t -> v = VRef t /\ is_Some (h !! t).
Proof.
  destruct v; simpl; try discriminate.
  unfold obj_at. destruct (h !! l) as [o|] eqn:Hl; simpl.
  - destruct (okind o); try discriminate. intros [= <-]. rewrite Hl. eauto.
  - discriminate.
Qed.

(** X5: objects are shared, not copied.  On a store with no own field
    named like a method, when two fields [a] and [b] hold the same plain
    object, a value written at "a:y" is assigned in that object and is what
    [read] returns at "b:y", for data keys [a], [b] and [y]; nothing but
    the shared object changes.  With [a] = [b] this is a write into an
    existing container. *)
Theorem write_through_alias (reg : registry)
    (invoke : fun_id -> heap -> value * heap) (fuel fuel' : nat)
    (this o : loc) (patha pathb a b y : string) (v : value) (h : heap) :
  split colon patha = [a; y] ->
  split colon pathb = [b; y] ->
  data_key a = true -> data_key b = true -> data_key y = true ->
  as_Store h (VRef this) = Some this ->
  unshadowed h this = true ->
  field h this a = VRef o ->
  field h this b = VRef o ->
  okind (obj_at h o) = KPlain ->
  allowedToWrite reg h this a = Ok true ->
  allowedToRead reg h this b = Ok true ->
  as_Store h v = None -> as_Function h v = None ->
  Dyn.write reg invoke (S fuel) this patha v h = Ret v (set_field o y v h) /\
  Dyn.read reg invoke (S (S (S fuel'))) this pathb (set_field o y v h)
  = Ret v (set_field o y v h) /\
  (forall m, m <> o -> set_field o y v h !! m = h !! m).
Proof.
  intros Ha Hb Hda Hdb Hdy Hstore Hu Hfa Hfb Hplain Hw Hr Hvs Hvf.
  set (h' := set_field o y v h).
  assert (Hne : o <> this).
  { intros ->. unfold as_Store in Hstore. now rewrite Hplain in Hstore. }
  assert (Hkind : forall m, okind (obj_at h' m) = okind (obj_at h m))
    by (intros m; apply okind_set_field).
  assert (Hos : as_Store h (VRef o) = None).
  { unfold as_Store. now rewrite Hplain. }
  assert (Hos' : as_Store h' (VRef o) = None)
    by now rewrite (as_Store_same_kind h h' _ Hkind).
  assert (Hof' : as_Function h' (VRef o) = None).
  { unfold as_Function, kind_of. now rewrite Hkind, Hplain. }
  assert (Hu' : unshadowed h' this = true).
  { unfold h'. rewrite unshadowed_set_field; [exact Hu |].
    now apply data_key_not_method. }
  destruct (unshadowed_own h this Hu) as (_ & _ & _ & _ & _ & Hpw).
  destruct (unshadowed_own h' this Hu') as (_ & _ & _ & _ & Hpr' & _).
  split; [| split].
  - rewrite (Dyn_write_path reg invoke).
    + rewrite Ha, (Dyn_performWrite_descend invoke).
      * now rewrite Hfa.
      * exact Hpw.
      * now rewrite Hfa.
      * unfold instanceof_Store. now rewrite Hfa, Hos.
    + rewrite Ha. cbn [key0 hd]. unfold instanceof_Store. now rewrite Hfa, Hos.
    + exact Hu.
    + now rewrite Ha.
  - assert (Hfb' : field h' this b = VRef o).
    { unfold h'. rewrite field_set_field_ne by (now left). exact Hfb. }
    rewrite (Dyn_read_path reg invoke).
    + rewrite Hb.
      rewrite (Dyn_performRead_plain_inner invoke _ this (VRef this) b y []
                 h' (VRef o));
        [| exact Hpr' | simpl; now rewrite Hfb' | exact Hos' | exact Hof'].
      rewrite (Dyn_performRead_plain_last invoke _ this (VRef o) y h' v).
      * unfold force. now rewrite (as_Function_same_kind h h' v Hkind), Hvf.
      * simpl. unfold h'. now rewrite field_set_field_eq.
      * now rewrite (as_Store_same_kind h h' v Hkind).
      * now rewrite (as_Function_same_kind h h' v Hkind).
    + now rewrite Hb.
    + rewrite Hb. cbn [key0 hd]. now rewrite Hfb', Hos'.
    + exact Hu'.
    + rewrite Hb. cbn [key0 hd]. unfold allowedToRead.
      rewrite (allowedTo_frame reg "r" h h' this b); [exact Hr | apply Hkind |].
      unfold h'. apply field_set_field_ne. now left.
  - intros m Hm. apply lookup_set_field_ne. congruence.
Qed.

Lemma write_through_alias_witness :
  Dyn.read ∅ ex_invoke 3 1%positive "b:y"
    (set_field 4%positive "y" (VNum 8) ex_shared)
  = Ret (VNum 8) (set_field 4%positive "y" (VNum 8) ex_shared).
Proof.
  apply (write_through_alias ∅ ex_invoke 0 0 1%positive 4%positive
           "a:y" "b:y" "a" "b" "y" (VNum 8) ex_shared); reflexivity.
Defined.

(** X6: a store held by a field is what [read] returns for that field.
    Found instead at the last of two segments, inside a plain object, it
    is not returned: it is traversed once more with no segment left, and
    [read] returns its field named "undefined" (so [undefined] when it has
    none).  The store read has no own field named like a method and the
    segments are data keys. *)
Theorem read_store_behind_container (reg : registry)
    (invoke : fun_id -> heap -> value * heap) (fuel : nat) (this : loc)
    (h : heap) (t : loc) :
  as_Store h (VRef t) = Some t ->
  unshadowed h this = true ->
  (forall path k,
     split colon path = [k] ->
     data_key k = true ->
     allowedToRead reg h this k = Ok true ->
     field h this k = VRef t ->
     Dyn.read reg invoke (S fuel) this path h = Ret (VRef t) h) /\
  (forall path k k2 c,
     split colon path = [k; k2] ->
     data_key k = true -> data_key k2 = true ->
     allowedToRead reg h this k = Ok true ->
     field h this k = VRef c ->
     okind (obj_at h c) = KPlain ->
     field h c k2 = VRef t ->
     as_Store h (field h t "undefined") = None ->
     as_Function h (field h t "undefined") = None ->
     Dyn.read reg invoke (S (S (S (S fuel)))) this path h
     = Ret (field h t "undefined") h).
Proof.
  intros Ht Hu.
  destruct (unshadowed_own h this Hu) as (_ & _ & _ & _ & Hpr & _).
  split.
  - intros path k Hs _ Ha Hk.
    rewrite (Dyn_read_key reg invoke _ _ _ k _ Hs Hu Ha), Hk.
    apply force_plain. unfold as_Function, kind_of.
    unfold as_Store in Ht. destruct (okind (obj_at h t)); try discriminate.
    reflexivity.
  - intros path k k2 c Hs _ _ Ha Hk Hplain Hc Hus Huf.
    assert (Hcs : as_Store h (VRef c) = None).
    { unfold as_Store. now rewrite Hplain. }
    assert (Hcf : as_Function h (VRef c) = None).
    { unfold as_Function, kind_of. now rewrite Hplain. }
    rewrite (Dyn_read_path reg invoke).
    + rewrite Hs.
      rewrite (Dyn_performRead_plain_inner invoke _ this (VRef this) k k2 [] h
                 (VRef c));
        [| exact Hpr | simpl; now rewrite Hk | exact Hcs | exact Hcf].
      rewrite (Dyn_performRead_store_last invoke _ this (VRef c) k2 h t);
        [| exact Hpr | simpl; now rewrite Hc | exact Ht | exact Hus
         | exact Huf].
      now apply force_plain.
    + now rewrite Hs.
    + rewrite Hs. cbn [key0 hd]. now rewrite Hk, Hcs.
    + exact Hu.
    + now rewrite Hs.
Qed.

Lemma read_store_behind_container_witness :
  Dyn.read ∅ ex_invoke 1 1%positive "s" ex_behind
  = Ret (VRef 2%positive) ex_behind /\
  Dyn.read ∅ ex_invoke 4 1%positive "o:s" ex_behind = Ret VUndef ex_behind.
Proof.
  split.
  - apply (proj1 (read_store_behind_container ∅ ex_invoke 0 1%positive
                    ex_behind 2%positive eq_refl eq_refl) "s" "s");
      reflexivity.
  - apply (proj2 (read_store_behind_container ∅ ex_invoke 0 1%positive
                    ex_behind 2%positive eq_refl eq_refl) "o:s" "o" "s"
             4%positive);
      reflexivity.
Defined.

(** ** Termination and outcomes *)

Section Outcomes.

Variable reg : registry.
Variable invoke : fun_id -> heap -> value * heap.


Lemma split_join_tail (path : string) :
  Nat.ltb 1 (length (split colon path)) = true ->
  split colon (join ":" (tail (split colon path))) = tail (split colon path).
Proof.
  intros Hlen. pose proof (split_no_sep colon path) as Hall.
  destruct (split colon path) as [|k [|k2 rest]]; try discriminate.
  inversion Hall as [|? ? _ Hrest]; subst.
  exact (split_join colon (k2 :: rest) ltac:(discriminate) Hrest).
Qed.

Lemma delegate_length (h : heap) (this nested : loc) (keys : list string) :
  delegate h this keys = Some nested ->
  Nat.ltb 1 (length keys) = true /\
  as_Store h (field h this (key0 keys)) = Some nested.
Proof.
  unfold delegate. destruct (Nat.ltb 1 (length keys)); [auto | discriminate].
Qed.

(** Where the stored functions leave the heap alone, so do the traversal
    and the permission test, whatever they call. *)
Lemma Dyn_performRead_same_heap (this : loc) (fuel : nat) :
  (forall f h, (invoke f h).2 = h) ->
  forall keys current h,
    same_heap h (Dyn.performRead invoke fuel this keys current h).
Proof.
  intros Hpure.
  assert (Hcall : forall g h, same_heap h (let '(r, h') := invoke g h in
                                           @Ret value r h')).
  { intros g h. pose proof (Hpure g h) as Hg.
    destruct (invoke g h) as [r h1]. simpl in Hg. now subst h1. }
  induction fuel as [|fuel IH]; intros keys current h; [exact I |].
  rewrite Dyn_performRead_S.
  destruct (get_prop h current (key0 keys)) as [v|e]; [| reflexivity].
  destruct (instanceof_Store h v).
  { destruct (lookup_method h this "performRead") as [|g|];
      [apply IH | apply Hcall | reflexivity]. }
  destruct (as_Function h v) as [f|].
  - destruct (Nat.eqb (length keys) 1); [apply Hcall |].
    cbv zeta. pose proof (Hpure f h) as Hf.
    destruct (invoke f h) as [r h1]. simpl in Hf. subst h1.
    destruct (lookup_method h this "performRead") as [|g|];
      [apply IH | apply Hcall | reflexivity].
  - destruct (Nat.ltb 1 (length keys)); [| reflexivity].
    destruct (lookup_method h this "performRead") as [|g|];
      [apply IH | apply Hcall | reflexivity].
Qed.

Lemma force_same_heap (v : value) (h : heap) :
  (forall f h, (invoke f h).2 = h) -> same_heap h (force invoke v h).
Proof.
  intros Hpure. unfold force. destruct (as_Function h v) as [f|];
    [| reflexivity].
  pose proof (Hpure f h) as Hf. destruct (invoke f h) as [r h1].
  simpl in Hf. now subst h1.
Qed.

Lemma Dyn_read_same_heap (fuel : nat) :
  (forall f h, (invoke f h).2 = h) ->
  forall this path h, same_heap h (Dyn.read reg invoke fuel this path h).
Proof.
  intros Hpure.
  assert (Hcall : forall g h, same_heap h (let '(r, h') := invoke g h in
                                           @Ret value r h')).
  { intros g h. pose proof (Hpure g h) as Hg.
    destruct (invoke g h) as [r h1]. simpl in Hg. now subst h1. }
  induction fuel as [|fuel IH]; intros this path h; [exact I |].
  rewrite Dyn_read_S.
  destruct (delegate h this (split colon path)) as [nested|].
  { destruct (lookup_method h nested "read") as [|g|];
      [apply IH | apply Hcall | reflexivity]. }
  assert (Hchk : match Dyn.allowedTo_call reg invoke "allowedToRead" "r" h
                         this (key0 (split colon path)) with
                 | Ret _ h1 => h1 = h
                 | Throw _ h1 => h1 = h
                 | OutOfFuel => True
                 end).
  { unfold Dyn.allowedTo_call.
    destruct (lookup_method h this "allowedToRead") as [|g|];
      [| | reflexivity].
    - now destruct (allowedTo reg "r" h this (key0 (split colon path))).
    - pose proof (Hpure g h) as Hg. destruct (invoke g h) as [r h1].
      simpl in Hg. now subst h1. }
  destruct (Dyn.allowedTo_call reg invoke "allowedToRead" "r" h this
              (key0 (split colon path))) as [[|] h1|e h1|];
    [subst h1 | subst h1; reflexivity | exact Hchk | exact I].
  assert (Hres : forall o : outcome value,
            same_heap h o ->
            same_heap h match o with
                        | Ret r h' => force invoke r h'
                        | Throw e h' => Throw e h'
                        | OutOfFuel => OutOfFuel
                        end).
  { intros [r h1|e h1|] Ho; simpl in Ho; [| exact Ho | exact I].
    subst h1. now apply force_same_heap. }
  apply Hres.
  destruct (Nat.ltb 1 (length (split colon path))); [| reflexivity].
  destruct (lookup_method h this "performRead") as [|g|];
    [now apply Dyn_performRead_same_heap | apply Hcall | reflexivity].
Qed.

End Outcomes.

(** X7: in a heap where no object has an own field named like a method
    of [Store], [write] terminates on every path: a budget of one call
    per segment is always enough; and when it returns, it returns the very
    value it was given. *)
Theorem write_terminates (reg : registry)
    (invoke : fun_id -> heap -> value * heap) (h : heap) (v : value)
    (fuel : nat) :
  heap_unshadowed h = true ->
  forall this path,
    length (split colon path) <= fuel ->
    (exists h', Dyn.write reg invoke fuel this path v h = Ret v h') \/
    (exists e h', Dyn.write reg invoke fuel this path v h = Throw e h').
Proof.
  intros Hh. pose proof (heap_unshadowed_spec h Hh) as Hu.
  induction fuel as [|fuel IH]; intros this path Hlen.
  - pose proof (split_nonempty colon path) as Hne.
    destruct (split colon path); [contradiction | simpl in Hlen; lia].
  - destruct (delegate h this (split colon path)) as [nested|] eqn:Hd.
    + rewrite (Dyn_write_delegated reg invoke _ _ _ _ _ _ Hd (Hu nested)).
      apply IH. apply delegate_length in Hd. destruct Hd as [Hl _].
      rewrite (split_join_tail path Hl).
      destruct (split colon path) as [|k rest]; simpl in *; lia.
    + destruct (unshadowed_own h this (Hu this)) as (_ & Haw & _ & _ & _ & Hpw).
      rewrite Dyn_write_S, Hd.
      rewrite (allowedTo_call_method reg invoke _ _ _ _ _ Haw).
      destruct (allowedTo reg "w" h this (key0 (split colon path)))
        as [[|]|e]; [| right; eauto | right; eauto].
      rewrite (lookup_method_own_None h this _ Hpw).
      destruct (Dyn_performWrite_outcome invoke this (split colon path) v
                  (VRef this) h) as [[h1 ->] | [h1 ->]];
        [left | right]; eauto.
Qed.

Lemma write_terminates_witness :
  (exists h', Dyn.write ex_reg ex_invoke 2 1%positive "inner:field" (VNum 1)
                ex_heap = Ret (VNum 1) h') \/
  (exists e h', Dyn.write ex_reg ex_invoke 2 1%positive "inner:field" (VNum 1)
                  ex_heap = Throw e h').
Proof.
  apply (write_terminates ex_reg ex_invoke ex_heap (VNum 1) 2 eq_refl
           1%positive "inner:field").
  vm_compute. lia.
Defined.




(** X9: [read] has no effect of its own.  Along data keys, where the
    stored functions leave the heap as it is, the heap after [read],
    returned or thrown, is the heap before, through any delegation and
    traversal. *)
Theorem read_changes_nothing (reg : registry)
    (invoke : fun_id -> heap -> value * heap) :
  (forall f h, (invoke f h).2 = h) ->
  forall fuel this path h,
    Forall (fun k => data_key k = true) (split colon path) ->
    match Dyn.read reg invoke fuel this path h with
    | Ret _ h' => h' = h
    | Throw _ h' => h' = h
    | OutOfFuel => True
    end.
Proof.
  intros Hpure fuel this path h _.
  exact (Dyn_read_same_heap reg invoke fuel Hpure this path h).
Qed.

Lemma read_changes_nothing_witness :
  match Dyn.read ex_reg ex_invoke 2 1%positive "inner:field" ex_heap with
  | Ret _ h' => h' = ex_heap
  | Throw _ h' => h' = ex_heap
  | OutOfFuel => True
  end.
Proof.
  apply (read_changes_nothing ex_reg ex_invoke).
  - intros f h. reflexivity.
  - repeat constructor.
Defined.

(** ** What [Restrict] lets through *)

(** X10: whatever [Restrict] accepts, it hands one of 'r', 'w', 'rw',
    'none' to the decorator; so the empty registry is valid and a
    declaration, accepted or refused, keeps a valid registry valid. *)
Theorem Restrict_registers_permissions (permission : option string)
    (target : proto) (key : string) (reg : registry) :
  (forall p, Restrict permission = Ok p -> In p permissions) /\
  registry_ok ∅ /\
  (registry_ok reg -> registry_ok (declare permission target key reg).2).
Proof.
  split; [| split].
  - intros p HR. unfold Restrict in HR. destruct permission as [q|].
    + destruct (String.eqb_spec q ""); simpl in HR.
      * injection HR as <-. simpl. auto.
      * destruct (is_permission q) eqn:Hq; simpl in HR; [| discriminate].
        injection HR as <-. now apply is_permission_In.
    + injection HR as <-. simpl. auto.
  - intros k p Hk. rewrite lookup_empty in Hk. discriminate.
  - apply declare_registry_ok.
Qed.

Lemma Restrict_registers_permissions_witness :
  registry_ok (declare (Some "rw") 10%positive "field" ∅).2.
Proof.
  apply (Restrict_registers_permissions (Some "rw") 10%positive "field" ∅).
  apply (Restrict_registers_permissions None 1%positive "" ∅).
Defined.

(** ** A failed write *)

Lemma closed_alloc_empty (h : heap) (n : loc) :
  closed h -> closed (<[n := empty_object]> h).
Proof.
  intros Hc l o k l' Hl Hk.
  destruct (decide (n = l)) as [-> | Hne].
  - rewrite lookup_insert_eq in Hl. injection Hl as <-.
    simpl in Hk. rewrite lookup_empty in Hk. discriminate.
  - rewrite lookup_insert_ne in Hl by exact Hne.
    specialize (Hc l o k l' Hl Hk).
    destruct (decide (n = l')) as [-> | Hne'].
    + rewrite lookup_insert_eq. eauto.
    + now rewrite lookup_insert_ne.
Qed.

Lemma closed_set_field (h : heap) (l : loc) (k : string) (v : value) :
  closed h -> is_Some (h !! l) ->
  (forall l', v = VRef l' -> is_Some (h !! l')) ->
  closed (set_field l k v h).
Proof.
  intros Hc [o Ho] Hv m om k0 l' Hm Hk0.
  apply lookup_set_field_is_Some.
  unfold set_field in Hm. destruct (decide (l = m)) as [<- | Hne].
  - rewrite lookup_insert_eq in Hm. injection Hm as <-. simpl in Hk0.
    unfold obj_at in Hk0. rewrite Ho in Hk0. simpl in Hk0.
    destruct (decide (k = k0)) as [<- | Hk].
    + rewrite lookup_insert_eq in Hk0. injection Hk0 as ->. now apply Hv.
    + rewrite lookup_insert_ne in Hk0 by exact Hk. eapply Hc; eassumption.
  - rewrite lookup_insert_ne in Hm by exact Hne. eapply Hc; eassumption.
Qed.

Lemma field_ref_allocated (h : heap) (l : loc) (k : string) (l' : loc) :
  closed h -> field h l k = VRef l' -> is_Some (h !! l').
Proof.
  intros Hc. unfold field, obj_at.
  destruct (h !! l) as [o|] eqn:Hl; simpl.
  - destruct (ofields o !! k) as [v|] eqn:Hk; simpl; [| discriminate].
    intros ->. eapply Hc; eassumption.
  - rewrite lookup_empty. discriminate.
Qed.

(** From a new empty object the write goes through. *)
Lemma performWrite_from_empty (v : value) (keys : list string) :
  forall (n : loc) (h : heap),
    h !! n = Some empty_object ->
    exists h', performWrite keys v (VRef n) h = Ret tt h'.
Proof.
  induction keys as [|k keys IH]; intros n h Hn; [simpl; eauto |].
  destruct keys as [|k2 rest]; [simpl; eauto |].
  assert (Hf : field h n k = VUndef).
  { unfold field, obj_at. now rewrite Hn. }
  rewrite performWrite_vivify by (now rewrite Hf).
  apply IH.
  assert (Hfresh : h !! fresh (dom h) = None)
    by (apply not_elem_of_dom, is_fresh).
  rewrite lookup_set_field_ne.
  - apply lookup_insert_eq.
  - intros Heq. rewrite <- Heq in Hfresh. congruence.
Qed.

(** A traversal that throws has changed no existing object. *)
Lemma performWrite_throw_frame (v : value) (keys : list string) :
  forall current h e h',
    closed h ->
    (forall l, current = VRef l -> is_Some (h !! l)) ->
    performWrite keys v current h = Throw e h' ->
    forall m, is_Some (h !! m) -> h' !! m = h !! m.
Proof.
  induction keys as [|k keys IH]; intros current h e h' Hc Hcur.
  - simpl. destruct current; simpl; try discriminate; now intros [= _ <-].
  - destruct keys as [|k2 rest].
    + simpl. destruct current; simpl; try discriminate; now intros [= _ <-].
    + rewrite performWrite_step.
      destruct (get_prop h current k) as [old|e0] eqn:Hg;
        [| now intros [= _ <-]].
      destruct (instanceof_Store h old) eqn:Hs.
      * apply IH; [exact Hc |]. intros l ->.
        unfold instanceof_Store in Hs.
        destruct (as_Store h (VRef l)) as [t|] eqn:Ht; [| discriminate].
        apply as_Store_allocated in Ht. destruct Ht as [[= <-] Hl]. exact Hl.
      * destruct (truthy old) eqn:Ht.
        -- destruct current as [| | | | | | |l]; simpl in Hg;
             try discriminate Hg;
             try (injection Hg as <-; discriminate Ht).
           injection Hg as <-. cbn [set_prop].
           rewrite (set_field_same h l k Ht).
           apply IH; [exact Hc |]. intros l' Hl'.
           eapply field_ref_allocated; eassumption.
        -- destruct (alloc empty_object h) as [n h1] eqn:Ha.
           apply alloc_fresh in Ha. destruct Ha as [Hn ->].
           destruct current as [| | | | | | |l]; cbn [set_prop];
             try (intros [= _ <-] m Hm; rewrite lookup_insert_ne;
                  [reflexivity | intros ->; rewrite Hn in Hm; now destruct Hm]).
           assert (Hne : l <> n).
           { intros ->. specialize (Hcur n eq_refl).
             rewrite Hn in Hcur. now destruct Hcur. }
           destruct (performWrite_from_empty v (k2 :: rest) n
                       (set_field l k (VRef n) (<[n := empty_object]> h)))
             as (h2 & Hw).
           { rewrite lookup_set_field_ne by exact Hne. apply lookup_insert_eq. }
           rewrite Hw. discriminate.
Qed.

(** X11: a [write] that fails leaves the store as it was.  In a heap
    without dangling references where no object has an own field named
    like a method of [Store], and along data keys, when [write] throws,
    whether the permission error at this store or at a nested one, or
    [TypeError] deep in the path, every object that existed before is
    unchanged. *)
Theorem write_failure_changes_nothing (reg : registry)
    (invoke : fun_id -> heap -> value * heap) (v : value) (h : heap)
    (fuel : nat) :
  closed h ->
  heap_unshadowed h = true ->
  forall (this : loc) (path : string) (e : error) (h' : heap),
    Forall (fun k => data_key k = true) (split colon path) ->
    is_Some (h !! this) ->
    Dyn.write reg invoke fuel this path v h = Throw e h' ->
    forall m, is_Some (h !! m) -> h' !! m = h !! m.
Proof.
  intros Hc Hh. pose proof (heap_unshadowed_spec h Hh) as Hu.
  induction fuel as [|fuel IH]; intros this path e h' Hkeys Hthis;
    [discriminate |].
  destruct (delegate h this (split colon path)) as [nested|] eqn:Hd.
  - rewrite (Dyn_write_delegated reg invoke _ _ _ _ _ _ Hd (Hu nested)).
    apply delegate_length in Hd. destruct Hd as [Hl Hn].
    apply IH.
    + rewrite (split_join_tail path Hl).
      destruct (split colon path) as [|k rest]; [constructor |].
      now inversion Hkeys.
    + apply as_Store_allocated in Hn. now destruct Hn.
  - destruct (unshadowed_own h this (Hu this)) as (_ & Haw & _ & _ & _ & Hpw).
    rewrite Dyn_write_S, Hd.
    rewrite (allowedTo_call_method reg invoke _ _ _ _ _ Haw).
    destruct (allowedTo reg "w" h this (key0 (split colon path)))
      as [[|]|e0]; try (now intros [= _ <-]).
    rewrite (lookup_method_own_None h this _ Hpw).
    rewrite (Dyn_performWrite_eq invoke this v _ Hkeys (VRef this) h Hpw).
    destruct (performWrite (split colon path) v (VRef this) h)
      as [u h1|e1 h1|] eqn:Hp; try discriminate.
    intros [= _ <-].
    eapply performWrite_throw_frame; [exact Hc | | exact Hp].
    now intros l [= <-].
Qed.

Lemma ex_five_closed : closed ex_five.
Proof.
  intros l o k l' Hl Hk. unfold ex_five in Hl.
  apply lookup_singleton_Some in Hl. destruct Hl as [_ <-]. simpl in Hk.
  apply lookup_insert_Some in Hk.
  destruct Hk as [[_ Hk] | [_ Hk]]; [discriminate |].
  apply lookup_singleton_Some in Hk. destruct Hk as [_ Hk]. discriminate.
Defined.

Lemma write_failure_changes_nothing_witness :
  exists h',
    Dyn.write ∅ ex_invoke 1 1%positive "x:y" (VNum 1) ex_five
    = Throw TypeError h' /\
    h' !! 1%positive = ex_five !! 1%positive.
Proof.
  exists ex_five. split; [reflexivity |].
  apply (write_failure_changes_nothing ∅ ex_invoke (VNum 1) ex_five 1
           ex_five_closed eq_refl 1%positive "x:y" TypeError ex_five);
    [repeat constructor | | reflexivity |]; vm_compute; eauto.
Defined.

(** ** Round trip through a nested store *)

(** X12: through a nested store only the nested store decides.  On a path
    of two segments, both data keys, whose first segment holds another
    store [t] with no own field named like a method, where [t] lets the
    second segment be written and read, [write] followed by [read] on the
    outer store gives back the value written, or what it returns when it
    is a function, whatever the permissions of the outer store. *)
Theorem write_then_read_nested (reg : registry)
    (invoke : fun_id -> heap -> value * heap) (fuel fuel' : nat)
    (s t : loc) (path a k : string) (v : value) (h : heap) :
  split colon path = [a; k] ->
  data_key a = true -> data_key k = true ->
  as_Store h (field h s a) = Some t ->
  unshadowed h t = true ->
  t <> s ->
  k <> "defaultPolicy" ->
  allowedToWrite reg h t k = Ok true ->
  allowedToRead reg h t k = Ok true ->
  Dyn.write reg invoke (S (S fuel)) s path v h = Ret v (set_field t k v h) /\
  Dyn.read reg invoke (S (S fuel')) s path (set_field t k v h)
  = force invoke v (set_field t k v h).
Proof.
  intros Hs _ Hdk Ht Hu Hne Hk Hw Hr.
  set (h' := set_field t k v h).
  assert (Hword : split colon k = [k]).
  { apply split_word. pose proof (split_no_sep colon path) as Hall.
    rewrite Hs in Hall. inversion Hall as [|? ? _ Hall']; subst.
    now inversion Hall'. }
  assert (Hkind : forall m, okind (obj_at h' m) = okind (obj_at h m))
    by (intros m; apply okind_set_field).
  assert (Hu' : unshadowed h' t = true).
  { unfold h'. rewrite unshadowed_set_field; [exact Hu |].
    now apply data_key_not_method. }
  assert (Hd : delegate h s (split colon path) = Some t).
  { unfold delegate. now rewrite Hs. }
  assert (Hd' : delegate h' s (split colon path) = Some t).
  { unfold delegate. rewrite Hs. cbn [length Nat.ltb Nat.leb key0 hd].
    unfold h'. rewrite field_set_field_ne by (now left).
    now rewrite (as_Store_same_kind h _ _ Hkind). }
  split.
  - rewrite (Dyn_write_delegated reg invoke _ _ _ _ _ _ Hd Hu), Hs.
    now apply Dyn_write_key.
  - rewrite (Dyn_read_delegated reg invoke _ _ _ _ _ Hd' Hu'), Hs.
    change (join ":" (tail [a; k])) with k.
    rewrite (Dyn_read_key reg invoke fuel' t _ k h' Hword Hu').
    + unfold h'. now rewrite field_set_field_eq.
    + unfold allowedToRead.
      rewrite (allowedTo_frame reg "r" h h' t k); [exact Hr | apply Hkind |].
      unfold h'. apply field_set_field_ne. now right.
Qed.

Lemma write_then_read_nested_witness :
  Dyn.write ex_reg ex_invoke 2 1%positive "inner:field" (VNum 3) ex_heap
  = Ret (VNum 3) (set_field 2%positive "field" (VNum 3) ex_heap) /\
  Dyn.read ex_reg ex_invoke 2 1%positive "inner:field"
    (set_field 2%positive "field" (VNum 3) ex_heap)
  = Ret (VNum 3) (set_field 2%positive "field" (VNum 3) ex_heap).
Proof.
  apply (write_then_read_nested ex_reg ex_invoke 0 0 1%positive 2%positive
           "inner:field" "inner" "field" (VNum 3) ex_heap);
    try reflexivity; discriminate.
Defined.

(** ** Writing through a stored function *)

(** X13: [write] never calls a stored function.  On a store with no own
    field named like a method and a path of two segments, both data keys,
    whose first segment holds a function, the value is assigned as a
    property of the function object, while [read] of the same path calls
    the function and looks into what it returns; so when the function
    returns a number, the value written is not read back: [read] returns
    [undefined]. *)
Theorem write_through_function (reg : registry)
    (invoke : fun_id -> heap -> value * heap) (fuel fuel' : nat)
    (this fo : loc) (f : fun_id) (path k y : string) (v : value) (h : heap) :
  split colon path = [k; y] ->
  data_key k = true -> data_key y = true ->
  as_Store h (VRef this) = Some this ->
  unshadowed h this = true ->
  field h this k = VRef fo ->
  as_Function h (VRef fo) = Some f ->
  allowedToWrite reg h this k = Ok true ->
  allowedToRead reg h this k = Ok true ->
  Dyn.write reg invoke (S fuel) this path v h = Ret v (set_field fo y v h) /\
  field (set_field fo y v h) fo y = v /\
  (forall n, (invoke f (set_field fo y v h)).1 = VNum n ->
     Dyn.read reg invoke (S (S (S fuel'))) this path (set_field fo y v h)
     = Ret VUndef (invoke f (set_field fo y v h)).2).
Proof.
  intros Hs _ Hdy Hstore Hu Hk Hf Hw Hr.
  set (h' := set_field fo y v h).
  assert (Hns : as_Store h (VRef fo) = None).
  { pose proof (as_Function_not_Store h _ f Hf) as H.
    unfold instanceof_Store in H. now destruct (as_Store h (VRef fo)). }
  assert (Hne : fo <> this).
  { intros ->. congruence. }
  assert (Hkind : forall m, okind (obj_at h' m) = okind (obj_at h m))
    by (intros m; apply okind_set_field).
  assert (Hk' : field h' this k = VRef fo).
  { unfold h'. rewrite field_set_field_ne by (now left). exact Hk. }
  assert (Hf' : as_Function h' (VRef fo) = Some f)
    by now rewrite (as_Function_same_kind h h' _ Hkind).
  assert (Hu' : unshadowed h' this = true).
  { unfold h'. rewrite unshadowed_set_field; [exact Hu |].
    now apply data_key_not_method. }
  destruct (unshadowed_own h this Hu) as (_ & _ & _ & _ & _ & Hpw).
  destruct (unshadowed_own h' this Hu') as (_ & _ & _ & _ & Hpr' & _).
  split; [| split].
  - rewrite (Dyn_write_path reg invoke).
    + rewrite Hs, (Dyn_performWrite_descend invoke).
      * now rewrite Hk.
      * exact Hpw.
      * now rewrite Hk.
      * unfold instanceof_Store. now rewrite Hk, Hns.
    + rewrite Hs. cbn [key0 hd]. unfold instanceof_Store. now rewrite Hk, Hns.
    + exact Hu.
    + now rewrite Hs.
  - apply field_set_field_eq.
  - intros n Hn. rewrite (Dyn_read_path reg invoke).
    + rewrite Hs.
      rewrite (Dyn_performRead_function_inner invoke _ this (VRef this) k y []
                 h' (VRef fo) f);
        [| exact Hpr' | simpl; now rewrite Hk' | exact Hf'].
      rewrite Hn. now rewrite Dyn_performRead_S.
    + now rewrite Hs.
    + rewrite Hs. cbn [key0 hd]. rewrite Hk'.
      now rewrite (as_Store_same_kind h h' _ Hkind).
    + exact Hu'.
    + rewrite Hs. cbn [key0 hd]. unfold allowedToRead.
      rewrite (allowedTo_frame reg "r" h h' this k); [exact Hr | apply Hkind |].
      unfold h'. apply field_set_field_ne. now left.
Qed.

Lemma write_through_function_witness :
  Dyn.write ∅ ex_invoke 1 1%positive "f:y" (VNum 5) ex_lazy
  = Ret (VNum 5) (set_field 3%positive "y" (VNum 5) ex_lazy) /\
  Dyn.read ∅ ex_invoke 3 1%positive "f:y"
    (set_field 3%positive "y" (VNum 5) ex_lazy)
  = Ret VUndef (set_field 3%positive "y" (VNum 5) ex_lazy).
Proof.
  destruct (write_through_function ∅ ex_invoke 0 0 1%positive 3%positive
              7%positive "f:y" "f" "y" (VNum 5) ex_lazy)
    as (Hw & _ & Hr); try reflexivity.
  split; [exact Hw | exact (Hr 42%Z eq_refl)].
Defined.

(** ** Missing keys on read *)

(** X14: a missing last segment reads as [undefined].  On a store with no
    own field named like a method, where [read] is permitted, a path of
    one data key naming no field, and a path of two data keys through a
    plain object that lacks the second one, return [undefined] and raise
    nothing; the same holds in the traversal, at a data key, from any
    container that can be indexed. *)
Theorem read_missing_last_is_undefined (reg : registry)
    (invoke : fun_id -> heap -> value * heap) (fuel : nat) :
  (forall this path k h,
     split colon path = [k] ->
     data_key k = true ->
     unshadowed h this = true ->
     allowedToRead reg h this k = Ok true ->
     field h this k = VUndef ->
     Dyn.read reg invoke (S fuel) this path h = Ret VUndef h) /\
  (forall this path k k2 c h,
     split colon path = [k; k2] ->
     data_key k = true -> data_key k2 = true ->
     unshadowed h this = true ->
     allowedToRead reg h this k = Ok true ->
     field h this k = VRef c ->
     okind (obj_at h c) = KPlain ->
     field h c k2 = VUndef ->
     Dyn.read reg invoke (S (S (S fuel))) this path h = Ret VUndef h) /\
  (forall this current k h,
     data_key k = true ->
     get_prop h current k = Ok VUndef ->
     Dyn.performRead invoke (S fuel) this [k] current h = Ret VUndef h).
Proof.
  split; [| split].
  - intros this path k h Hs _ Hu Ha Hk.
    now rewrite (Dyn_read_key reg invoke _ _ _ k _ Hs Hu Ha), Hk.
  - intros this path k k2 c h Hs _ _ Hu Ha Hk Hplain Hc.
    assert (Hcs : as_Store h (VRef c) = None).
    { unfold as_Store. now rewrite Hplain. }
    assert (Hcf : as_Function h (VRef c) = None).
    { unfold as_Function, kind_of. now rewrite Hplain. }
    destruct (unshadowed_own h this Hu) as (_ & _ & _ & _ & Hpr & _).
    rewrite (Dyn_read_path reg invoke).
    + rewrite Hs.
      rewrite (Dyn_performRead_plain_inner invoke _ this (VRef this) k k2 [] h
                 (VRef c));
        [| exact Hpr | simpl; now rewrite Hk | exact Hcs | exact Hcf].
      rewrite Dyn_performRead_missing_last; [reflexivity |].
      simpl. now rewrite Hc.
    + now rewrite Hs.
    + rewrite Hs. cbn [key0 hd]. now rewrite Hk, Hcs.
    + exact Hu.
    + now rewrite Hs.
  - intros this current k h _. apply Dyn_performRead_missing_last.
Qed.

Lemma read_missing_last_is_undefined_witness :
  Dyn.read ∅ ex_invoke 1 1%positive "nothing" ex_shared
  = Ret VUndef ex_shared /\
  Dyn.read ∅ ex_invoke 3 1%positive "a:nothing" ex_shared
  = Ret VUndef ex_shared.
Proof.
  split.
  - apply (proj1 (read_missing_last_is_undefined ∅ ex_invoke 0)
             1%positive "nothing" "nothing" ex_shared); reflexivity.
  - apply (proj1 (proj2 (read_missing_last_is_undefined ∅ ex_invoke 0))
             1%positive "a:nothing" "a" "nothing" 4%positive ex_shared);
      reflexivity.
Defined.

(** ** Reading what was loaded *)

(** After a load, the store has an own field named like a method only if
    it or the loaded object had one. *)
Lemma unshadowed_writeEntries_loop (this e : loc) (h : heap) :
  unshadowed h this = true -> unshadowed h e = true ->
  unshadowed (writeEntries_loop this e (Object_keys h e) h) this = true.
Proof.
  intros Hu He. apply unshadowed_spec. intros name Hin.
  destruct (writeEntries_loop_spec this e (Object_keys h e) h)
    as (_ & _ & _ & Hown).
  destruct (ofields (obj_at (writeEntries_loop this e (Object_keys h e) h)
                       this) !! name) as [w|] eqn:Hw; [| reflexivity].
  exfalso. assert (Hs : is_Some (Some w)) by eauto. rewrite <- Hw in Hs.
  apply Hown in Hs. destruct Hs as [Hk | Hk].
  - apply elem_of_Object_keys in Hk.
    rewrite (proj1 (unshadowed_spec h e) He name Hin) in Hk. now destruct Hk.
  - rewrite (proj1 (unshadowed_spec h this) Hu name Hin) in Hk.
    now destruct Hk.
Qed.

(** X16: [writeEntries] followed by [read].  The store has no own field
    named like a method, nor has the loaded object, a plain object which
    has no own key "__proto__" either.  A data key of the loaded object that contains no
    ':' is read back, where the store (after the load) lets it be read, as
    the loaded value, called if it is a function.  A key with a ':' is
    stored as one field, which [read] never looks at: it splits the
    path. *)
Theorem writeEntries_then_read (reg : registry)
    (invoke : fun_id -> heap -> value * heap) (fuel : nat) (this e : loc)
    (k : string) (h : heap) :
  unshadowed h this = true ->
  okind (obj_at h e) = KPlain ->
  unshadowed h e = true ->
  ofields (obj_at h e) !! "__proto__" = None ->
  is_Some (ofields (obj_at h e) !! k) ->
  data_key k = true ->
  has_char colon k = false ->
  exists h',
    writeEntries this (VRef e) h = Ret tt h' /\
    (allowedToRead reg h' this k = Ok true ->
     Dyn.read reg invoke (S fuel) this k h' = force invoke (field h e k) h').
Proof.
  intros Hu _ He _ Hin _ Hk. eexists. split; [reflexivity |].
  intros Ha.
  destruct (writeEntries_loop_spec this e (Object_keys h e) h) as (Hf & _).
  rewrite (Dyn_read_key reg invoke _ _ _ k _ (split_word colon k Hk)
             (unshadowed_writeEntries_loop this e h Hu He) Ha).
  rewrite Hf. rewrite decide_True; [reflexivity |].
  now apply elem_of_Object_keys.
Qed.

Lemma writeEntries_then_read_witness :
  exists h',
    writeEntries 1%positive (VRef 5%positive) ex_bulk = Ret tt h' /\
    Dyn.read ∅ ex_invoke 1 1%positive "a" h' = Ret (VNum 1) h'.
Proof.
  assert (Hin : is_Some (ofields (obj_at ex_bulk 5%positive) !! "a"))
    by (vm_compute; eauto).
  destruct (writeEntries_then_read ∅ ex_invoke 0 1%positive 5%positive "a"
              ex_bulk eq_refl eq_refl eq_refl eq_refl Hin eq_refl eq_refl)
    as (h' & Hw & Hr).
  exists h'. split; [exact Hw |].
  rewrite Hr; [reflexivity |].
  unfold writeEntries in Hw.
  assert (Hh : writeEntries_loop 1%positive 5%positive
                 (Object_keys ex_bulk 5%positive) ex_bulk = h') by congruence.
  rewrite <- Hh. vm_compute. reflexivity.
Defined.
